(** * Shallow embedding of src/main.py: the configuration-language lexer,
    the recursive-descent parser/evaluator and the XML tree builder.

    Modelling choices:
    - text is a list of Unicode code points ([list Z]); Python's [\d]
      (Unicode decimal digits), [str.isspace] and the decimal value of a digit
      are the section variables [is_digit], [is_space], [decimal], constrained
      by what Python fixes on the ASCII range;
    - numbers are Python's: IEEE binary64 floats ([b64]: signed zeros,
      infinities, NaN, round to nearest even, overflow to infinity), plus the
      int [0] that [sum] returns for no arguments; [float(lit)] rounds the
      literal's exact decimal value, [-], [abs] and [<] are the float ones,
      and [sum] is CPython's (3.12 and later: Neumaier-compensated);
      [str(val)] of the XML text is not modelled, the XML holds [val];
    - Python [dict]s (the environment and dictionary values) are association
      lists kept in insertion order, updated in place on an existing key;
    - exceptions are the constructors of [error]; the parser threads its
      state ([tokens], [pos], [env]) explicitly and is given a recursion
      budget ([fuel]). *)

From Stdlib Require Import List ZArith QArith Qabs Lia Bool.
From Stdlib Require Strings.String Strings.Ascii.
Import (notations) Strings.String.
Import ListNotations.
Set Warnings "-register-all".

Open Scope Z_scope.

(** ** Characters, tokens, values, errors *)

Abbreviation char := Z.
Abbreviation text := (list Z).

(** ASCII code points used by the token patterns. *)
Definition c_minus := 45.
Definition c_plus := 43.
Definition c_dot := 46.
Definition c_e := 101.
Definition c_E := 69.
Definition c_colon := 58.
Definition c_eq := 61.
Definition c_lparen := 40.
Definition c_rparen := 41.
Definition c_lbrack := 91.
Definition c_rbrack := 93.
Definition c_comma := 44.
Definition c_semicolon := 59.
Definition c_space := 32.

(** [[a-z]] *)
Definition is_lower (c : char) : bool := (97 <=? c) && (c <=? 122).

Inductive kind :=
| NUMBER | ASSIGN | FUNC | NAME | LPAREN | RPAREN | LBRACK | RBRACK
| COLON | COMMA | SEMICOLON | OP.

Definition kind_eqb (a b : kind) : bool :=
  match a, b with
  | NUMBER, NUMBER | ASSIGN, ASSIGN | FUNC, FUNC | NAME, NAME
  | LPAREN, LPAREN | RPAREN, RPAREN | LBRACK, LBRACK | RBRACK, RBRACK
  | COLON, COLON | COMMA, COMMA | SEMICOLON, SEMICOLON | OP, OP => true
  | _, _ => false
  end.

(** [class Token]: a (type, value) pair. *)
Record token := Token { type : kind; value : text }.

(** The exceptions the program can raise.  [SyntaxError] is Python's builtin
    (raised by [tokenize], [consume], [parse_value], [parse_expr]);
    [NameError] is the undefined-constant error of [parse_value];
    [AttributeError] is [None.type]; [IndexError], [TypeError] and
    [ValueError] come from list indexing, arithmetic on a dict and [min([])].
    [OutOfFuel] only signals an exhausted recursion budget of the model. *)
Inductive error :=
| SyntaxError
| NameError (name : text)
| AttributeError
| IndexError
| TypeError
| ValueError
| OutOfFuel.

Inductive result (A : Type) :=
| Ok (a : A)
| Err (e : error).
Arguments Ok {A} a.
Arguments Err {A} e.

(** ** IEEE 754 binary64: Python's [float]

    A float is a signed zero, a signed infinity, NaN, or a finite non-zero
    [(-1)^neg * m * 2^e], kept canonical: normal numbers have
    [2^52 <= m < 2^53] and [-1074 <= e <= 971], subnormal ones [e = -1074]
    and [m < 2^52].  Operations round to nearest, ties to even. *)
Inductive b64 :=
| B64Zero (neg : bool)
| B64Inf (neg : bool)
| B64NaN
| B64Fin (neg : bool) (m : positive) (e : Z).

(** The exact value of a finite non-zero float. *)
Definition q_of_fin (neg : bool) (m : positive) (e : Z) : Q :=
  let a := if 0 <=? e then Qmake (Zpos m * 2 ^ e) 1
           else Qmake (Zpos m) (Z.to_pos (2 ^ (- e))) in
  if neg then Qopp a else a.

(** [n / d] rounded to the nearest integer, ties to even ([0 <= n], [0 < d]). *)
Definition round_half_even (n d : Z) : Z :=
  let q := n / d in
  let r := n mod d in
  match Z.compare (2 * r) d with
  | Lt => q
  | Gt => q + 1
  | Eq => if Z.even q then q else q + 1
  end.

(** [floor(log2(n / d))] for [0 < n]. *)
Definition floor_log2 (n : Z) (d : positive) : Z :=
  let k := Z.log2 n - Z.log2 (Zpos d) in
  if 0 <=? k then (if 2 ^ k * Zpos d <=? n then k else k - 1)
  else (if Zpos d <=? n * 2 ^ (- k) then k else k - 1).

(** The float nearest to [(-1)^neg * n / d] ([0 < n]): 53 significant bits,
    or the fixed exponent [-1074] below the normal range; a carry out of the
    significand bumps the exponent, and an exponent above 971 overflows to
    infinity. *)
Definition round64 (neg : bool) (n : Z) (d : positive) : b64 :=
  let e0 := Z.max (floor_log2 n d - 52) (-1074) in
  let m0 := if 0 <=? e0 then round_half_even n (Zpos d * 2 ^ e0)
            else round_half_even (n * 2 ^ (- e0)) (Zpos d) in
  let '(m, e) := if m0 =? 2 ^ 53 then (2 ^ 52, e0 + 1) else (m0, e0) in
  if 971 <? e then B64Inf neg
  else match m with Zpos p => B64Fin neg p e | _ => B64Zero neg end.

(** The float nearest to [q]; an exact zero gets the sign [zero_neg]. *)
Definition b64_of_Q (q : Q) (zero_neg : bool) : b64 :=
  match Qnum q with
  | Z0 => B64Zero zero_neg
  | Zpos n => round64 false (Zpos n) (Qden q)
  | Zneg n => round64 true (Zpos n) (Qden q)
  end.

Definition b64_neg (x : b64) : b64 :=
  match x with
  | B64Zero s => B64Zero (negb s)
  | B64Inf s => B64Inf (negb s)
  | B64NaN => B64NaN
  | B64Fin s m e => B64Fin (negb s) m e
  end.

(** [fabs] *)
Definition b64_abs (x : b64) : b64 :=
  match x with
  | B64Zero _ => B64Zero false
  | B64Inf _ => B64Inf false
  | B64NaN => B64NaN
  | B64Fin _ m e => B64Fin false m e
  end.

(** [x + y]: NaN propagates, [inf + -inf] is NaN, an infinity absorbs the
    finite operand, [-0 + -0] is [-0], and an exact zero sum of non-zero
    operands is [+0]. *)
Definition b64_add (x y : b64) : b64 :=
  match x, y with
  | B64NaN, _ | _, B64NaN => B64NaN
  | B64Inf a, B64Inf b => if Bool.eqb a b then B64Inf a else B64NaN
  | B64Inf a, _ => B64Inf a
  | _, B64Inf b => B64Inf b
  | B64Zero a, B64Zero b => B64Zero (a && b)
  | B64Zero _, _ => y
  | _, B64Zero _ => x
  | B64Fin a m e, B64Fin b m' e' =>
      b64_of_Q (q_of_fin a m e + q_of_fin b m' e')%Q false
  end.

(** [x - y] *)
Definition b64_sub (x y : b64) : b64 := b64_add x (b64_neg y).

(** The extended real a non-NaN float stands for. *)
Inductive ekey := KNegInf | KFin (q : Q) | KPosInf.

Definition key (x : b64) : option ekey :=
  match x with
  | B64NaN => None
  | B64Inf s => Some (if s then KNegInf else KPosInf)
  | B64Zero _ => Some (KFin 0)
  | B64Fin s m e => Some (KFin (q_of_fin s m e))
  end.

Definition klt (a b : ekey) : bool :=
  match a, b with
  | KNegInf, KNegInf => false
  | KNegInf, _ => true
  | KFin _, KNegInf => false
  | KFin p, KFin q => negb (Qle_bool q p)
  | KFin _, KPosInf => true
  | KPosInf, _ => false
  end.

(** [x < y] and [x <= y]: false whenever an operand is NaN. *)
Definition b64_lt (x y : b64) : bool :=
  match key x, key y with Some a, Some b => klt a b | _, _ => false end.

Definition b64_le (x y : b64) : bool :=
  match key x, key y with Some a, Some b => negb (klt b a) | _, _ => false end.

(** ** Character classification (Python's [\d], [str.isspace]) *)

Section Program.

Variable is_digit : char -> bool.
Variable is_space : char -> bool.
Variable decimal : char -> Z.

(** On ASCII, [\d] is [[0-9]] ... *)
Hypothesis is_digit_ascii :
  forall c, 0 <= c < 128 -> is_digit c = (48 <=? c) && (c <=? 57).
(** ... and [str.isspace] holds exactly for \t \n \v \f \r, \x1c-\x1f and ' '. *)
Hypothesis is_space_ascii :
  forall c, 0 <= c < 128 ->
    is_space c = ((9 <=? c) && (c <=? 13)) || ((28 <=? c) && (c <=? 32)).
(** No Unicode decimal digit is a whitespace character. *)
Hypothesis digit_not_space :
  forall c, is_digit c = true -> is_space c = false.

(** ** Lexer: TOKEN_REGEX as an ordered list of matchers *)

(** Greedy [p*]: the longest prefix of characters satisfying [p]. *)
Fixpoint span (p : char -> bool) (s : text) : text * text :=
  match s with
  | c :: t => if p c then let '(a, b) := span p t in (c :: a, b) else ([], s)
  | [] => ([], [])
  end.

(** [-?] *)
Definition opt_minus (s : text) : text * text :=
  match s with
  | c :: t => if c =? c_minus then ([c], t) else ([], s)
  | [] => ([], [])
  end.

(** [(?:\d+\.\d*|\.\d+|\d+)], alternatives tried in order. *)
Definition mantissa (s : text) : option (text * text) :=
  let '(d, t) := span is_digit s in
  match d with
  | _ :: _ =>
      match t with
      | c :: u =>
          if c =? c_dot then let '(d2, v) := span is_digit u in Some (d ++ c :: d2, v)
          else Some (d, t)
      | [] => Some (d, t)
      end
  | [] =>
      match s with
      | c :: u =>
          if c =? c_dot then
            let '(d2, v) := span is_digit u in
            match d2 with _ :: _ => Some (c :: d2, v) | [] => None end
          else None
      | [] => None
      end
  end.

(** [(?:[eE][+-]?\d+)?]: taken only when at least one digit follows. *)
Definition exponent (s : text) : text * text :=
  match s with
  | e :: t =>
      if (e =? c_e) || (e =? c_E) then
        let '(sg, t') :=
          match t with
          | c :: t'' => if (c =? c_plus) || (c =? c_minus) then ([c], t'') else ([], t)
          | [] => ([], [])
          end in
        let '(d, v) := span is_digit t' in
        match d with _ :: _ => (e :: sg ++ d, v) | [] => ([], s) end
      else ([], s)
  | [] => ([], [])
  end.

(** [(?P<NUMBER>-?(?:\d+\.\d*|\.\d+|\d+)(?:[eE][+-]?\d+)?)].  When the
    mantissa fails after a leading [-], backtracking to the empty [-?] makes
    the mantissa start at the [-], where it fails again. *)
Definition match_number (s : text) : option (text * text) :=
  let '(sg, s1) := opt_minus s in
  match mantissa s1 with
  | Some (m, s2) => let '(e, s3) := exponent s2 in Some (sg ++ m ++ e, s3)
  | None => None
  end.

(** A literal word [w] at the head of [s]. *)
Fixpoint prefix (w s : text) : bool :=
  match w, s with
  | [], _ => true
  | a :: w', c :: s' => (a =? c) && prefix w' s'
  | _ :: _, [] => false
  end.

Definition w_abs : text := [97; 98; 115].
Definition w_min : text := [109; 105; 110].
Definition w_assign : text := [c_colon; c_eq].

Definition match_word (w s : text) : option (text * text) :=
  if prefix w s then Some (w, skipn (length w) s) else None.

(** [(?P<FUNC>abs|min)] *)
Definition match_func (s : text) : option (text * text) :=
  match match_word w_abs s with
  | Some r => Some r
  | None => match_word w_min s
  end.

(** [(?P<NAME>[a-z]+)] *)
Definition match_name (s : text) : option (text * text) :=
  let '(a, b) := span is_lower s in
  match a with _ :: _ => Some (a, b) | [] => None end.

Definition match_char (c : char) (s : text) : option (text * text) :=
  match s with
  | d :: t => if d =? c then Some ([d], t) else None
  | [] => None
  end.

(** [(?P<OP>[+\-])] *)
Definition match_op (s : text) : option (text * text) :=
  match s with
  | d :: t => if (d =? c_plus) || (d =? c_minus) then Some ([d], t) else None
  | [] => None
  end.

(** The named groups of TOKEN_REGEX in order; [re.match] takes the first
    alternative that matches, and the [groupdict] loop reports its group. *)
Definition patterns : list (kind * (text -> option (text * text))) :=
  [ (NUMBER, match_number); (ASSIGN, match_word w_assign); (FUNC, match_func);
    (NAME, match_name); (LPAREN, match_char c_lparen); (RPAREN, match_char c_rparen);
    (LBRACK, match_char c_lbrack); (RBRACK, match_char c_rbrack);
    (COLON, match_char c_colon); (COMMA, match_char c_comma);
    (SEMICOLON, match_char c_semicolon); (OP, match_op) ].

Fixpoint first_match (ps : list (kind * (text -> option (text * text)))) (s : text)
  : option (token * text) :=
  match ps with
  | [] => None
  | (k, m) :: ps' =>
      match m s with
      | Some (lit, rest) => Some (Token k lit, rest)
      | None => first_match ps' s
      end
  end.

(** [TOKEN_REGEX.match(text, pos)] followed by the [groupdict] loop. *)
Definition lex_one (s : text) : option (token * text) := first_match patterns s.

(** The [while pos < length] loop of [tokenize]; [fuel] bounds the number of
    iterations and [length text] of them always suffice. *)
Fixpoint tokenize_loop (fuel : nat) (s : text) : result (list token) :=
  match fuel with
  | O => match s with [] => Ok [] | _ => Err OutOfFuel end
  | S f =>
      match s with
      | [] => Ok []
      | c :: t =>
          if is_space c then tokenize_loop f t
          else match lex_one s with
               | None => Err SyntaxError
               | Some (tok, rest) =>
                   match tokenize_loop f rest with
                   | Ok toks => Ok (tok :: toks)
                   | Err e => Err e
                   end
               end
      end
  end.

Definition tokenize (s : text) : result (list token) := tokenize_loop (length s) s.

(** ** Values and the environment *)

(** The exact value of a number literal: sign, digits before and after the
    point and the decimal exponent. *)
Fixpoint digits_val (acc : Z) (ds : text) : Z :=
  match ds with
  | [] => acc
  | d :: t => digits_val (acc * 10 + decimal d) t
  end.

Definition exponent_val (s : text) : Z :=
  match s with
  | _ :: c :: t =>
      if c =? c_minus then - digits_val 0 t
      else if c =? c_plus then digits_val 0 t
      else digits_val 0 (c :: t)
  | _ => 0
  end.

Definition decimal_value (lit : text) : Q :=
  let '(sg, s1) := opt_minus lit in
  let '(ip, r1) := span is_digit s1 in
  let '(fp, r2) :=
    match r1 with
    | c :: u => if c =? c_dot then span is_digit u else ([], r1)
    | [] => ([], [])
    end in
  let n := digits_val 0 (ip ++ fp) in
  let n := match sg with [] => n | _ => - n end in
  let k := exponent_val r2 - Z.of_nat (length fp) in
  if 0 <=? k then inject_Z (n * 10 ^ k) else Qmake n (Z.to_pos (10 ^ (- k))).

(** [float(tok.value)]: the float nearest to the literal's value; a literal
    that rounds to zero keeps its sign ([float("-0")] is [-0.0]). *)
Definition float_of (lit : text) : b64 :=
  b64_of_Q (decimal_value lit)
    (match opt_minus lit with ([], _) => false | (_ :: _, _) => true end).

End Program.

(** A Python [dict] as an association list in insertion order. *)
Definition dict (A : Type) := list (text * A).

Fixpoint dict_get {A} (k : text) (d : dict A) : option A :=
  match d with
  | [] => None
  | (k', v) :: t => if list_eq_dec Z.eq_dec k k' then Some v else dict_get k t
  end.

(** [d[k] = v]: replaces the value in place, or appends a new key. *)
Fixpoint dict_set {A} (k : text) (v : A) (d : dict A) : dict A :=
  match d with
  | [] => [(k, v)]
  | (k', v') :: t =>
      if list_eq_dec Z.eq_dec k k' then (k', v) :: t else (k', v') :: dict_set k v t
  end.

Definition keys {A} (d : dict A) : list text := map fst d.

(** A Python number the program can hold: a float, or the int [0] that
    [sum] returns for no arguments.  No other int arises: int arithmetic on
    it ([0 - 0], [abs(0)]) gives [0] again. *)
Inductive num :=
| NInt0
| NFloat (f : b64).

(** The float an int operand is converted to. *)
Definition as_float (a : num) : b64 :=
  match a with NInt0 => B64Zero false | NFloat f => f end.

(** A value is a number or a [dict] of values. *)
Inductive Value :=
| VNum (x : num)
| VDict (d : list (text * Value)).

(** ** Expression evaluation: [Parser.eval_expr] *)

(** [a - b]: int minus int stays an int, otherwise both are floats; a dict
    raises TypeError. *)
Definition py_sub (a b : Value) : result Value :=
  match a, b with
  | VNum NInt0, VNum NInt0 => Ok (VNum NInt0)
  | VNum x, VNum y => Ok (VNum (NFloat (b64_sub (as_float x) (as_float y))))
  | _, _ => Err TypeError
  end.

Definition py_abs (a : Value) : result Value :=
  match a with
  | VNum NInt0 => Ok (VNum NInt0)
  | VNum (NFloat x) => Ok (VNum (NFloat (b64_abs x)))
  | _ => Err TypeError
  end.

(** [a < b]: numbers compare by value (an int exactly with a float); a dict
    raises TypeError. *)
Definition py_lt (a b : Value) : result bool :=
  match a, b with
  | VNum x, VNum y => Ok (b64_lt (as_float x) (as_float y))
  | _, _ => Err TypeError
  end.

(** [sum(l)] as CPython 3.12 and later computes it: the float loop, from
    the first float on.  [f] is the running sum and [c] Neumaier's
    compensation: each float [x] gives [t = f + x] and adds the rounding
    error of that addition ([(f - t) + x] if [|f| >= |x|], [(x - t) + f]
    otherwise) to [c]; an int item is added as [f += (double)i]; at the end
    [c] is added to [f] when it is finite and non-zero.  A dict raises
    TypeError. *)
Fixpoint sum_float_loop (f c : b64) (l : list Value) : result Value :=
  match l with
  | [] =>
      Ok (VNum (NFloat (match c with B64Fin _ _ _ => b64_add f c | _ => f end)))
  | VNum NInt0 :: t => sum_float_loop (b64_add f (B64Zero false)) c t
  | VNum (NFloat x) :: t =>
      let s := b64_add f x in
      let c' := if b64_le (b64_abs x) (b64_abs f)
                then b64_add c (b64_add (b64_sub f s) x)
                else b64_add c (b64_add (b64_sub x s) f) in
      sum_float_loop s c' t
  | VDict _ :: _ => Err TypeError
  end.

(** The int loop: from the start value [0], ints are added exactly until
    the first float [x] makes the result [0 + x], a float. *)
Fixpoint py_sum (l : list Value) : result Value :=
  match l with
  | [] => Ok (VNum NInt0)
  | VNum NInt0 :: t => py_sum t
  | VNum (NFloat x) :: t => sum_float_loop (b64_add (B64Zero false) x) (B64Zero false) t
  | VDict _ :: _ => Err TypeError
  end.

(** [min(l)]: the first element, replaced by each later [item] with
    [item < current]. *)
Fixpoint py_min_from (cur : Value) (l : list Value) : result Value :=
  match l with
  | [] => Ok cur
  | x :: t =>
      match py_lt x cur with
      | Ok true => py_min_from x t
      | Ok false => py_min_from cur t
      | Err e => Err e
      end
  end.

Definition py_min (l : list Value) : result Value :=
  match l with
  | [] => Err ValueError
  | x :: t => py_min_from x t
  end.

Definition op_plus : text := [c_plus].
Definition op_minus : text := [c_minus].

Definition text_eqb (a b : text) : bool :=
  if list_eq_dec Z.eq_dec a b then true else false.

Definition eval_expr (op : text) (args : list Value) : result Value :=
  if text_eqb op op_plus then py_sum args
  else if text_eqb op op_minus then
    match args with
    | [] => Err IndexError
    | a :: rest =>
        match py_sum rest with
        | Ok s => py_sub a s
        | Err e => Err e
        end
    end
  else if text_eqb op w_abs then
    match args with
    | [] => Err IndexError
    | a :: _ => py_abs a
    end
  else if text_eqb op w_min then py_min args
  else Err SyntaxError.

(** ** Parser: [class Parser] *)

(** The fields of a [Parser] object. *)
Record pstate := PState { tokens : list token; pos : nat; env : dict Value }.

Definition advance (st : pstate) : pstate :=
  PState (tokens st) (S (pos st)) (env st).

Definition set_env (st : pstate) (e : dict Value) : pstate :=
  PState (tokens st) (pos st) e.

(** [peek]: the current token, or [None] past the end. *)
Definition peek (st : pstate) : option token := nth_error (tokens st) (pos st).

(** [consume(typ)]: SyntaxError on [None] or on a token of another type. *)
Definition consume (typ : kind) (st : pstate) : result (token * pstate) :=
  match peek st with
  | Some tok => if kind_eqb (type tok) typ then Ok (tok, advance st) else Err SyntaxError
  | None => Err SyntaxError
  end.

(** Sequencing of the parser's steps; an exception propagates. *)
Notation "'let!' ( x , st ) := m 'in' k" :=
  (match m with Ok (x, st) => k | Err e => Err e end)
  (at level 200, x name, st name, m at level 100, k at level 200).

Section Parser.

Variable is_digit : char -> bool.
Variable decimal : char -> Z.

Local Abbreviation float := (float_of is_digit decimal).

(** [parse_value], [parse_dict] (with its [while] loop [parse_dict_loop]) and
    [parse_expr] (with its argument loop [parse_args_loop]).  Every call and
    every loop iteration spends one unit of [fuel]. *)
Fixpoint parse_value (fuel : nat) (st : pstate) {struct fuel} : result (Value * pstate) :=
  match fuel with
  | O => Err OutOfFuel
  | S f =>
      match peek st with
      | None => Err AttributeError
      | Some tok =>
          match type tok with
          | NUMBER => Ok (VNum (NFloat (float (value tok))), advance st)
          | NAME =>
              match dict_get (value tok) (env st) with
              | Some v => Ok (v, advance st)
              | None => Err (NameError (value tok))
              end
          | LPAREN =>
              match nth_error (tokens st) (S (pos st)) with
              | None => Err IndexError
              | Some nxt =>
                  if kind_eqb (type nxt) LBRACK then parse_dict f st else parse_expr f st
              end
          | _ => Err SyntaxError
          end
      end
  end
with parse_dict (fuel : nat) (st : pstate) {struct fuel} : result (Value * pstate) :=
  match fuel with
  | O => Err OutOfFuel
  | S f =>
      let! (_, st) := consume LPAREN st in
      let! (_, st) := consume LBRACK st in
      let! (d, st) := parse_dict_loop f [] st in
      let! (_, st) := consume RBRACK st in
      let! (_, st) := consume RPAREN st in
      Ok (VDict d, st)
  end
with parse_dict_loop (fuel : nat) (d : dict Value) (st : pstate) {struct fuel}
  : result (dict Value * pstate) :=
  match fuel with
  | O => Err OutOfFuel
  | S f =>
      match peek st with
      | None => Err AttributeError
      | Some t =>
          if kind_eqb (type t) RBRACK then Ok (d, st)
          else
            let! (key, st) := consume NAME st in
            let! (_, st) := consume COLON st in
            let! (v, st) := parse_value f st in
            let d := dict_set (value key) v d in
            match peek st with
            | None => Err AttributeError
            | Some t' =>
                if kind_eqb (type t') COMMA then
                  let! (_, st) := consume COMMA st in parse_dict_loop f d st
                else parse_dict_loop f d st
            end
      end
  end
with parse_expr (fuel : nat) (st : pstate) {struct fuel} : result (Value * pstate) :=
  match fuel with
  | O => Err OutOfFuel
  | S f =>
      let! (_, st) := consume LPAREN st in
      match peek st with
      | None => Err AttributeError
      | Some tok =>
          let opr :=
            if kind_eqb (type tok) OP then consume OP st
            else if kind_eqb (type tok) FUNC then consume FUNC st
            else Err SyntaxError in
          let! (op, st) := opr in
          let! (args, st) := parse_args_loop f [] st in
          let! (_, st) := consume RPAREN st in
          match eval_expr (value op) args with
          | Ok v => Ok (v, st)
          | Err e => Err e
          end
      end
  end
with parse_args_loop (fuel : nat) (args : list Value) (st : pstate) {struct fuel}
  : result (list Value * pstate) :=
  match fuel with
  | O => Err OutOfFuel
  | S f =>
      match peek st with
      | None => Err AttributeError
      | Some t =>
          if kind_eqb (type t) RPAREN then Ok (args, st)
          else
            let! (v, st) := parse_value f st in
            parse_args_loop f (args ++ [v]) st
      end
  end.

(** [parse_assignment]: the name is bound only after the value and the
    semicolon have been parsed. *)
Definition parse_assignment (fuel : nat) (st : pstate) : result (unit * pstate) :=
  let! (name, st) := consume NAME st in
  let! (_, st) := consume ASSIGN st in
  let! (v, st) := parse_value fuel st in
  let! (_, st) := consume SEMICOLON st in
  Ok (tt, set_env st (dict_set (value name) v (env st))).

(** [parse]: [while self.peek(): self.parse_assignment()]; a [Token] object is
    always truthy, so the loop runs until the end of the tokens. *)
Fixpoint parse_program (vfuel fuel : nat) (st : pstate) : result (dict Value) :=
  match fuel with
  | O => Err OutOfFuel
  | S f =>
      match peek st with
      | None => Ok (env st)
      | Some _ =>
          match parse_assignment vfuel st with
          | Ok (_, st') => parse_program vfuel f st'
          | Err e => Err e
          end
      end
  end.

(** [Parser(tokens).parse()].  Every statement consumes a token, and a
    nesting level of [parse_value] spends three calls for at least two tokens,
    so [S n] loop iterations and a call budget of [2 n + 2] for [n] tokens
    are never exhausted ([parse_terminates] below). *)
Definition parse (toks : list token) : result (dict Value) :=
  parse_program (2 * length toks + 2) (S (length toks)) (PState toks 0 []).

End Parser.

(** ** XML: [to_xml] and [value_to_xml] *)

Local Open Scope string_scope.

Definition txt (s : String.string) : text :=
  map (fun a => Z.of_nat (Ascii.nat_of_ascii a)) (String.list_ascii_of_string s).

(** An [ET.Element]: tag, attributes in the order they are set, the text
    content (the number [val] whose [str(val)] is written; the formatting of
    [str] is not modelled) and the children. *)
Inductive xml :=
| Element (tag : String.string) (attrs : list (String.string * text))
    (content : option num) (children : list xml).

Fixpoint value_to_xml (name : text) (v : Value) : xml :=
  match v with
  | VNum q => Element "entry" [("name", name); ("type", txt "number")] (Some q) []
  | VDict d =>
      Element "entry" [("name", name); ("type", txt "dict")] None
        ((fix entries (d : list (text * Value)) : list xml :=
            match d with
            | [] => []
            | (k, v') :: t => value_to_xml k v' :: entries t
            end) d)
  end.

Definition to_xml (data : dict Value) : xml :=
  Element "config" [] None (map (fun '(k, v) => value_to_xml k v) data).

Local Close Scope string_scope.

(** ** Python's classification on ASCII text

    An instance of the section variables that agrees with Python on ASCII
    (and classifies every non-ASCII code point as neither digit nor space);
    it is used to run the program on concrete ASCII documents. *)
Definition ascii_isdigit (c : char) : bool := (48 <=? c) && (c <=? 57).
Definition ascii_isspace (c : char) : bool :=
  ((9 <=? c) && (c <=? 13)) || ((28 <=? c) && (c <=? 32)).
Definition ascii_decimal (c : char) : Z := c - 48.

Definition tokenize_ascii (s : String.string) : result (list token) :=
  tokenize ascii_isdigit ascii_isspace (txt s).

(** [main] without its I/O: [Parser(tokenize(text)).parse()]. *)
Definition run (s : String.string) : result (dict Value) :=
  match tokenize_ascii s with
  | Ok toks => parse ascii_isdigit ascii_decimal toks
  | Err e => Err e
  end.

(** [" ".join(t.value for t in toks)]: the literals separated by single
    spaces. *)
Fixpoint join_literals (toks : list token) : text :=
  match toks with
  | [] => []
  | t :: ts =>
      match ts with
      | [] => value t
      | _ :: _ => value t ++ c_space :: join_literals ts
      end
  end.

(** * Lexer lemmas *)

Section LexerFacts.

Variable is_digit : char -> bool.
Variable is_space : char -> bool.
Hypothesis is_digit_ascii :
  forall c, 0 <= c < 128 -> is_digit c = (48 <=? c) && (c <=? 57).
Hypothesis is_space_ascii :
  forall c, 0 <= c < 128 ->
    is_space c = ((9 <=? c) && (c <=? 13)) || ((28 <=? c) && (c <=? 32)).
Hypothesis digit_not_space :
  forall c, is_digit c = true -> is_space c = false.

(** What may follow a literal in the re-lexed text: nothing, or a space. *)
Definition stop (r : text) : Prop :=
  match r with [] => True | c :: _ => is_space c = true end.

(** [p] fails on the head of [r] (or [r] is empty). *)
Definition head_fails (p : char -> bool) (r : text) : Prop :=
  match r with [] => True | c :: _ => p c = false end.

Lemma space_neq c k : is_space c = true -> 33 <= k < 128 -> (c =? k) = false.
Proof.
  intros Hs Hk. destruct (Z.eqb_spec c k) as [->|]; [|reflexivity].
  rewrite is_space_ascii in Hs by lia.
  destruct (Z.leb_spec 9 k), (Z.leb_spec k 13), (Z.leb_spec 28 k), (Z.leb_spec k 32);
    simpl in Hs; try discriminate; lia.
Qed.

Lemma space_not_digit c : is_space c = true -> is_digit c = false.
Proof.
  intros Hs. destruct (is_digit c) eqn:Hd; [|reflexivity].
  rewrite (digit_not_space c Hd) in Hs. discriminate.
Qed.

Lemma space_not_lower c : is_space c = true -> is_lower c = false.
Proof.
  intros Hs. unfold is_lower.
  destruct (Z.leb_spec 97 c), (Z.leb_spec c 122); simpl; try reflexivity.
  assert (Hc := space_neq c c Hs ltac:(lia)). rewrite Z.eqb_refl in Hc. discriminate.
Qed.

Lemma digit_neq c k : is_digit c = true -> 0 <= k < 128 -> (k <? 48) || (57 <? k) = true ->
  (c =? k) = false.
Proof.
  intros Hd Hk Hr. destruct (Z.eqb_spec c k) as [->|]; [|reflexivity].
  rewrite is_digit_ascii in Hd by lia.
  destruct (Z.leb_spec 48 k), (Z.leb_spec k 57), (Z.ltb_spec k 48), (Z.ltb_spec 57 k);
    simpl in *; try discriminate; lia.
Qed.

Lemma span_spec p s a b :
  span p s = (a, b) -> s = a ++ b /\ Forall (fun c => p c = true) a /\ head_fails p b.
Proof.
  revert a b; induction s as [|c s IH]; intros a b H; simpl in H.
  - injection H as <- <-. repeat constructor.
  - destruct (p c) eqn:Hp.
    + destruct (span p s) as [a' b'] eqn:E. injection H as <- <-.
      destruct (IH a' b' eq_refl) as (-> & Ha & Hb). repeat split; auto.
    + injection H as <- <-. simpl. repeat split; auto.
Qed.

Lemma span_stop p c s : p c = false -> span p (c :: s) = ([], c :: s).
Proof. intros H. simpl. rewrite H. reflexivity. Qed.

Lemma span_app p x r :
  Forall (fun c => p c = true) x -> head_fails p r -> span p (x ++ r) = (x, r).
Proof.
  intros Hx Hr. induction Hx as [|c x Hc Hx IH]; simpl.
  - destruct r as [|c r]; simpl in *; [reflexivity|]. rewrite Hr. reflexivity.
  - rewrite Hc, IH. reflexivity.
Qed.

(** Rewrites the classification of concrete ASCII code points and of a
    whitespace character [sp] ([Hsp : is_space sp = true]). *)
Ltac unfold_chars :=
  unfold w_abs, w_min, w_assign, c_minus, c_plus, c_dot, c_e, c_E, c_colon, c_eq,
    c_lparen, c_rparen, c_lbrack, c_rbrack, c_comma, c_semicolon in *.

Ltac char_facts :=
  repeat match goal with
  | Hsp : is_space ?sp = true |- context [Z.eqb ?sp (Zpos ?k)] =>
      rewrite (space_neq sp (Zpos k) Hsp) by lia
  | Hsp : is_space ?sp = true |- context [Z.eqb (Zpos ?k) ?sp] =>
      rewrite (Z.eqb_sym (Zpos k) sp), (space_neq sp (Zpos k) Hsp) by lia
  | Hsp : is_space ?sp = true |- context [is_digit ?sp] => rewrite (space_not_digit sp Hsp)
  | Hsp : is_space ?sp = true |- context [is_lower ?sp] => rewrite (space_not_lower sp Hsp)
  | |- context [is_digit (Zpos ?k)] => rewrite (is_digit_ascii (Zpos k)) by lia
  end.

Ltac lexcalc :=
  repeat (cbn -[is_digit is_lower]; char_facts); cbv [is_lower]; cbn; try reflexivity.

(** ** The NUMBER pattern reads nothing past its literal *)

Lemma mantissa_head s1 m s2 :
  mantissa is_digit s1 = Some (m, s2) ->
  exists c m', m = c :: m' /\ (is_digit c = true \/ c = c_dot).
Proof.
  unfold mantissa. destruct (span is_digit s1) as [d t] eqn:Es.
  apply span_spec in Es. destruct Es as (-> & Hd & _).
  destruct d as [|d0 d']; simpl.
  - destruct t as [|c u]; [intros ?; discriminate|].
    destruct (c =? c_dot) eqn:Ec; [|intros ?; discriminate].
    destruct (span is_digit u) as [[|x d2] v]; [intros ?; discriminate|].
    intros H; injection H as <- <-. apply Z.eqb_eq in Ec. eauto.
  - inversion Hd; subst. intros H.
    destruct t as [|c u]; [injection H as <- <-; eauto|].
    destruct (c =? c_dot); [destruct (span is_digit u) as [d2 v]|];
      injection H as <- <-; eauto.
Qed.

Lemma mantissa_stable s1 m s2 x :
  mantissa is_digit s1 = Some (m, s2) ->
  head_fails is_digit x -> head_fails (fun c => c =? c_dot) x ->
  mantissa is_digit (m ++ x) = Some (m, x).
Proof.
  intros H Hx Hxd. unfold mantissa in H.
  destruct (span is_digit s1) as [d t] eqn:Es.
  apply span_spec in Es. destruct Es as (-> & Hd & Ht).
  assert (Hdot : is_digit c_dot = false) by (apply is_digit_ascii; unfold c_dot; lia).
  destruct d as [|d0 d']; simpl in H.
  - destruct t as [|c u]; [discriminate|].
    destruct (c =? c_dot) eqn:Ec; [|discriminate].
    destruct (span is_digit u) as [d2 v] eqn:Eu.
    apply span_spec in Eu. destruct Eu as (_ & Hd2 & _).
    destruct d2 as [|x0 d2']; [discriminate|].
    injection H as <- <-. apply Z.eqb_eq in Ec; subst c.
    unfold mantissa.
    change ((c_dot :: x0 :: d2') ++ x) with (c_dot :: ((x0 :: d2') ++ x)).
    rewrite (span_stop _ _ _ Hdot). cbv beta iota. rewrite Z.eqb_refl.
    rewrite (span_app _ (x0 :: d2') x Hd2 Hx). reflexivity.
  - assert (Hplain : mantissa is_digit ((d0 :: d') ++ x) = Some (d0 :: d', x)).
    { unfold mantissa. rewrite (span_app _ _ x Hd Hx).
      destruct x as [|c u]; [reflexivity|]. simpl in Hxd. rewrite Hxd. reflexivity. }
    destruct t as [|c u]; [injection H as <- <-; exact Hplain|].
    destruct (c =? c_dot) eqn:Ec; [|injection H as <- <-; exact Hplain].
    destruct (span is_digit u) as [d2 v] eqn:Eu.
    apply span_spec in Eu. destruct Eu as (_ & Hd2 & _).
    injection H as <- <-. apply Z.eqb_eq in Ec; subst c.
    unfold mantissa.
    replace ((d0 :: d' ++ c_dot :: d2) ++ x) with ((d0 :: d') ++ c_dot :: (d2 ++ x))
      by (simpl; rewrite <- app_assoc; reflexivity).
    rewrite (span_app _ (d0 :: d') (c_dot :: d2 ++ x) Hd) by (simpl; exact Hdot).
    cbv beta iota. rewrite Z.eqb_refl, (span_app _ d2 x Hd2 Hx). reflexivity.
Qed.

Lemma exponent_head s2 e s3 :
  exponent is_digit s2 = (e, s3) -> e = [] \/ exists c e', e = c :: e' /\ (c = c_e \/ c = c_E).
Proof.
  unfold exponent. destruct s2 as [|c t]; [intros H; injection H as <- <-; auto|].
  destruct ((c =? c_e) || (c =? c_E)) eqn:Hc; [|intros H; injection H as <- <-; auto].
  destruct (match t with
            | [] => ([], [])
            | c0 :: t'' => if (c0 =? c_plus) || (c0 =? c_minus) then ([c0], t'') else ([], t)
            end) as [sg t'].
  destruct (span is_digit t') as [[|d0 d] v]; intros H; injection H as <- <-; [auto|].
  right. exists c, (sg ++ d0 :: d). split; [reflexivity|].
  apply orb_true_iff in Hc. destruct Hc as [Hc|Hc]; apply Z.eqb_eq in Hc; auto.
Qed.

Lemma exponent_none r : stop r -> exponent is_digit r = ([], r).
Proof. destruct r as [|sp r]; simpl; intros Hsp; [reflexivity|]. unfold c_e, c_E. char_facts. reflexivity. Qed.

Lemma exponent_stable s2 e s3 r :
  exponent is_digit s2 = (e, s3) -> stop r -> exponent is_digit (e ++ r) = (e, r).
Proof.
  intros H Hr. unfold exponent in H.
  assert (Hrd : head_fails is_digit r)
    by (destruct r as [|sp r]; simpl in *; [exact I | apply space_not_digit; exact Hr]).
  destruct s2 as [|c t]; [injection H as <- <-; apply exponent_none; exact Hr|].
  destruct ((c =? c_e) || (c =? c_E)) eqn:Hc; [|injection H as <- <-; apply exponent_none; exact Hr].
  destruct t as [|c0 t''].
  - simpl in H. injection H as <- <-. apply exponent_none; exact Hr.
  - destruct ((c0 =? c_plus) || (c0 =? c_minus)) eqn:Hs.
    + destruct (span is_digit t'') as [d v] eqn:Ed.
      apply span_spec in Ed. destruct Ed as (_ & Hd & _).
      destruct d as [|d0 d]; injection H as <- <-; [apply exponent_none; exact Hr|].
      change ((c :: c0 :: d0 :: d) ++ r) with (c :: c0 :: ((d0 :: d) ++ r)).
      unfold exponent. rewrite Hc. cbv beta iota. rewrite Hs.
      rewrite (span_app _ (d0 :: d) r Hd Hrd). reflexivity.
    + destruct (span is_digit (c0 :: t'')) as [d v] eqn:Ed.
      apply span_spec in Ed. destruct Ed as (_ & Hd & _).
      destruct d as [|d0 d]; injection H as <- <-; [apply exponent_none; exact Hr|].
      inversion Hd; subst.
      simpl. rewrite Hc.
      rewrite (digit_neq d0 c_plus), (digit_neq d0 c_minus) by (auto; unfold c_plus, c_minus; lia || reflexivity).
      simpl. rewrite (span_app _ d r) by auto. rewrite H1. reflexivity.
Qed.

Lemma opt_minus_cases s sg s1 :
  opt_minus s = (sg, s1) -> (sg = [c_minus] /\ s = c_minus :: s1) \/ (sg = [] /\ s1 = s).
Proof.
  unfold opt_minus. destruct s as [|c t]; intros H; [injection H as <- <-; auto|].
  destruct (c =? c_minus) eqn:Ec; injection H as <- <-; [left|right]; auto.
  apply Z.eqb_eq in Ec; subst; auto.
Qed.

Lemma number_stable s lit r0 r :
  match_number is_digit s = Some (lit, r0) -> stop r ->
  match_number is_digit (lit ++ r) = Some (lit, r) /\
  exists c l, lit = c :: l /\ is_space c = false.
Proof.
  intros H Hr. unfold match_number in H.
  destruct (opt_minus s) as [sg s1] eqn:Eo.
  destruct (mantissa is_digit s1) as [[m s2]|] eqn:Em; [|discriminate].
  destruct (exponent is_digit s2) as [e s3] eqn:Ee.
  injection H as <- <-.
  assert (Hm : mantissa is_digit (m ++ e ++ r) = Some (m, e ++ r)).
  { apply (mantissa_stable s1 m s2); [exact Em| |];
      destruct (exponent_head _ _ _ Ee) as [-> | (c & e' & -> & [-> | ->])];
      destruct r as [|sp r]; simpl in *; auto; unfold c_e, c_E, c_dot in *; char_facts; auto;
      try reflexivity; apply is_digit_ascii; lia. }
  destruct (mantissa_head _ _ _ Em) as (c & m' & -> & Hc).
  assert (Hcs : is_space c = false).
  { destruct Hc as [Hc | ->]; [apply digit_not_space; exact Hc|].
    apply is_space_ascii; unfold c_dot; lia. }
  destruct (opt_minus_cases _ _ _ Eo) as [[-> _] | [-> _]].
  - split.
    + unfold match_number. simpl.
      replace (c :: (m' ++ e) ++ r) with ((c :: m') ++ e ++ r)
        by (simpl; rewrite app_assoc; reflexivity).
      rewrite Hm.
      rewrite (exponent_stable s2 e s3 r Ee Hr). reflexivity.
    + exists c_minus, ((c :: m') ++ e). split; [reflexivity|].
      apply is_space_ascii; unfold c_minus; lia.
  - split.
    + unfold match_number. simpl.
      assert (Hc45 : (c =? c_minus) = false).
      { destruct Hc as [Hc | ->]; [apply digit_neq; auto; unfold c_minus; lia || reflexivity|reflexivity]. }
      rewrite Hc45.
      replace (c :: (m' ++ e) ++ r) with ((c :: m') ++ e ++ r)
        by (simpl; rewrite app_assoc; reflexivity).
      rewrite Hm, (exponent_stable s2 e s3 r Ee Hr). reflexivity.
    + exists c, (m' ++ e). split; [reflexivity | exact Hcs].
Qed.

(** ** Every other pattern *)

Lemma ascii_not_space k : 33 <= k < 128 -> is_space k = false.
Proof.
  intros Hk. rewrite is_space_ascii by lia.
  destruct (Z.leb_spec 9 k), (Z.leb_spec k 13), (Z.leb_spec 28 k), (Z.leb_spec k 32);
    simpl; reflexivity || lia.
Qed.

Lemma lower_range c : is_lower c = true -> 97 <= c <= 122.
Proof.
  unfold is_lower. intros H. apply andb_true_iff in H. destruct H as [H1 H2].
  apply Z.leb_le in H1, H2. lia.
Qed.

Lemma number_lower c x : is_lower c = true -> match_number is_digit (c :: x) = None.
Proof.
  intros Hl. apply lower_range in Hl.
  unfold match_number, opt_minus, mantissa.
  assert (Hm : (c =? c_minus) = false) by (apply Z.eqb_neq; unfold c_minus; lia).
  assert (Hd : (c =? c_dot) = false) by (apply Z.eqb_neq; unfold c_dot; lia).
  assert (Hg : is_digit c = false).
  { rewrite is_digit_ascii by lia. destruct (Z.leb_spec c 57); [lia|].
    rewrite andb_false_r. reflexivity. }
  rewrite Hm, (span_stop _ _ _ Hg). cbv beta iota. rewrite Hd. reflexivity.
Qed.

Lemma prefix_letters w lit x y :
  Forall (fun c => is_lower c = true) w -> Forall (fun c => is_lower c = true) lit ->
  head_fails is_lower x -> head_fails is_lower y ->
  prefix w (lit ++ x) = prefix w (lit ++ y).
Proof.
  intros Hw. revert lit. induction Hw as [|a w Ha Hw IH]; intros lit Hlit Hx Hy;
    [destruct (lit ++ x), (lit ++ y); reflexivity|].
  destruct lit as [|b lit].
  - assert (Hneq : forall z, head_fails is_lower z -> prefix (a :: w) z = false).
    { intros [|c z] Hz; simpl in *; [reflexivity|].
      destruct (Z.eqb_spec a c) as [->|]; [congruence | reflexivity]. }
    cbn [app]. rewrite (Hneq x Hx), (Hneq y Hy). reflexivity.
  - inversion Hlit; subst. simpl. rewrite (IH lit); auto.
Qed.

Lemma match_word_lit w s lit rest : match_word w s = Some (lit, rest) -> lit = w.
Proof. unfold match_word. destruct (prefix w s); intros H; [injection H as <- _; reflexivity | discriminate]. Qed.

Lemma match_func_lit s lit rest :
  match_func s = Some (lit, rest) -> lit = w_abs \/ lit = w_min.
Proof.
  unfold match_func. destruct (match_word w_abs s) as [[l r]|] eqn:E.
  - intros H; injection H as <- <-. left. exact (match_word_lit _ _ _ _ E).
  - intros H. right. exact (match_word_lit _ _ _ _ H).
Qed.

Lemma match_char_lit k s lit rest : match_char k s = Some (lit, rest) -> lit = [k].
Proof.
  unfold match_char. destruct s as [|d t]; [discriminate|].
  destruct (Z.eqb_spec d k) as [->|]; intros H; [injection H as <- _; reflexivity | discriminate].
Qed.

Lemma match_op_lit s lit rest : match_op s = Some (lit, rest) -> lit = [c_plus] \/ lit = [c_minus].
Proof.
  unfold match_op. destruct s as [|d t]; [discriminate|].
  destruct (Z.eqb_spec d c_plus) as [->|]; [intros H; injection H as <- _; auto|].
  destruct (Z.eqb_spec d c_minus) as [->|]; [intros H; injection H as <- _; auto|].
  discriminate.
Qed.

(** A token is self-delimiting when its literal starts with a non-space
    character and lexes back to the token whatever whitespace follows it. *)
Definition self_delim (t : token) : Prop :=
  (exists c l, value t = c :: l /\ is_space c = false) /\
  forall r, stop r -> lex_one is_digit (value t ++ r) = Some (t, r).

Lemma number_other c x :
  is_digit c = false -> (c =? c_minus) = false -> (c =? c_dot) = false ->
  match_number is_digit (c :: x) = None.
Proof.
  intros Hg Hm Hd. unfold match_number, opt_minus, mantissa.
  rewrite Hm, (span_stop _ _ _ Hg). cbv beta iota. rewrite Hd. reflexivity.
Qed.

Lemma number_minus r : stop r -> match_number is_digit (c_minus :: r) = None.
Proof.
  intros Hr. unfold match_number, opt_minus. rewrite Z.eqb_refl.
  unfold mantissa. destruct r as [|sp r]; [reflexivity|]. simpl in Hr.
  rewrite (span_stop _ _ _ (space_not_digit sp Hr)). cbv beta iota.
  rewrite (space_neq sp c_dot Hr) by (unfold c_dot; lia). reflexivity.
Qed.

Ltac concrete_token :=
  split;
  [ eexists; eexists; split; [reflexivity | apply ascii_not_space;
      unfold c_colon, c_eq, c_lparen, c_rparen, c_lbrack, c_rbrack, c_comma,
        c_semicolon, c_plus, c_minus; lia]
  | intros r Hr; unfold lex_one, patterns; cbn [first_match value];
    unfold w_abs, w_min, w_assign; cbn [app];
    first
      [ rewrite (number_minus r Hr)
      | rewrite number_other;
        [ | rewrite is_digit_ascii; [reflexivity | unfold_chars; lia]
          | reflexivity | reflexivity ] ];
    unfold_chars; unfold match_word, match_func, match_name, match_char, match_op;
    destruct r as [|sp r]; simpl in Hr; cbn -[Z.eqb]; char_facts; cbn; reflexivity ].

Lemma lex_one_self_delim s t r0 : lex_one is_digit s = Some (t, r0) -> self_delim t.
Proof.
  intros H. unfold lex_one, patterns in H. cbn [first_match] in H.
  destruct (match_number is_digit s) as [[lit rest]|] eqn:E1.
  { injection H as <- <-. split.
    - exact (proj2 (number_stable s lit rest [] E1 I)).
    - intros r Hr. unfold lex_one, patterns. cbn [first_match value].
      rewrite (proj1 (number_stable _ _ _ r E1 Hr)). reflexivity. }
  destruct (match_word w_assign s) as [[lit rest]|] eqn:E2.
  { apply match_word_lit in E2; subst lit. injection H as <- <-. concrete_token. }
  destruct (match_func s) as [[lit rest]|] eqn:E3.
  { apply match_func_lit in E3. injection H as <- <-.
    destruct E3 as [-> | ->]; concrete_token. }
  destruct (match_name s) as [[lit rest]|] eqn:E4.
  { injection H as <- <-. unfold match_name in E4.
    destruct (span is_lower s) as [a b] eqn:Es.
    destruct a as [|c l]; [discriminate|]. injection E4 as <- <-.
    apply span_spec in Es. destruct Es as (-> & Hlow & Hb).
    assert (Hc : is_lower c = true) by (inversion Hlow; assumption).
    unfold match_func, match_word in E3.
    destruct (prefix w_abs ((c :: l) ++ b)) eqn:Pa; [discriminate|].
    destruct (prefix w_min ((c :: l) ++ b)) eqn:Pm; [discriminate|].
    split.
    - exists c, l. split; [reflexivity|]. apply lower_range in Hc. apply ascii_not_space; lia.
    - intros r Hr.
      assert (Hrl : head_fails is_lower r)
        by (destruct r as [|sp r]; simpl in *; [exact I | apply space_not_lower; exact Hr]).
      assert (Hw : forall w, Forall (fun c => is_lower c = true) w ->
                 prefix w (c :: l ++ r) = prefix w ((c :: l) ++ b))
        by (intros w Hw; rewrite app_comm_cons; apply prefix_letters; auto).
      unfold lex_one, patterns. cbn [first_match value]. rewrite <- app_comm_cons.
      rewrite (number_lower c (l ++ r) Hc).
      assert (Hnc : (c_colon =? c) = false)
        by (apply lower_range in Hc; apply Z.eqb_neq; unfold c_colon; lia).
      unfold match_word at 1, w_assign. cbn [prefix app]. rewrite Hnc. cbn [andb].
      unfold match_func, match_word.
      rewrite (Hw w_abs), Pa, (Hw w_min), Pm by (repeat constructor).
      unfold match_name. rewrite app_comm_cons, (span_app _ (c :: l) r Hlow Hrl). reflexivity. }
  destruct (match_char c_lparen s) as [[lit rest]|] eqn:E5.
  { apply match_char_lit in E5; subst lit. injection H as <- <-. concrete_token. }
  destruct (match_char c_rparen s) as [[lit rest]|] eqn:E6.
  { apply match_char_lit in E6; subst lit. injection H as <- <-. concrete_token. }
  destruct (match_char c_lbrack s) as [[lit rest]|] eqn:E7.
  { apply match_char_lit in E7; subst lit. injection H as <- <-. concrete_token. }
  destruct (match_char c_rbrack s) as [[lit rest]|] eqn:E8.
  { apply match_char_lit in E8; subst lit. injection H as <- <-. concrete_token. }
  destruct (match_char c_colon s) as [[lit rest]|] eqn:E9.
  { apply match_char_lit in E9; subst lit. injection H as <- <-. concrete_token. }
  destruct (match_char c_comma s) as [[lit rest]|] eqn:E10.
  { apply match_char_lit in E10; subst lit. injection H as <- <-. concrete_token. }
  destruct (match_char c_semicolon s) as [[lit rest]|] eqn:E11.
  { apply match_char_lit in E11; subst lit. injection H as <- <-. concrete_token. }
  destruct (match_op s) as [[lit rest]|] eqn:E12; [|discriminate].
  apply match_op_lit in E12. injection H as <- <-.
  destruct E12 as [-> | ->]; concrete_token.
Qed.

Lemma tokenize_loop_self_delim fuel s toks :
  tokenize_loop is_digit is_space fuel s = Ok toks -> Forall self_delim toks.
Proof.
  revert s toks. induction fuel as [|f IH]; intros s toks H; simpl in H.
  - destruct s; [injection H as <-; constructor | discriminate].
  - destruct s as [|c t]; [injection H as <-; constructor|].
    destruct (is_space c); [exact (IH _ _ H)|].
    destruct (lex_one is_digit (c :: t)) as [[tok rest]|] eqn:E; [|discriminate].
    destruct (tokenize_loop is_digit is_space f rest) as [toks'|] eqn:Et; [|discriminate].
    injection H as <-. constructor; [exact (lex_one_self_delim _ _ _ E) | exact (IH _ _ Et)].
Qed.

Lemma tokenize_loop_nil fuel : tokenize_loop is_digit is_space fuel [] = Ok [].
Proof. destruct fuel; reflexivity. Qed.

Lemma is_space_32 : is_space c_space = true.
Proof. rewrite is_space_ascii; [reflexivity | unfold c_space; lia]. Qed.

Lemma tokenize_loop_join toks fuel :
  Forall self_delim toks -> (length (join_literals toks) <= fuel)%nat ->
  tokenize_loop is_digit is_space fuel (join_literals toks) = Ok toks.
Proof.
  intros Hall. revert fuel. induction Hall as [|t ts Ht Hts IH]; intros fuel Hlen.
  - apply tokenize_loop_nil.
  - destruct Ht as ((c & l & Hv & Hc) & Hlex).
    destruct ts as [|t' ts].
    + cbn [join_literals] in *. rewrite Hv in Hlen |- *.
      destruct fuel as [|f]; [simpl in Hlen; lia|].
      cbn [tokenize_loop]. rewrite Hc.
      specialize (Hlex [] I). rewrite Hv, app_nil_r in Hlex. rewrite Hlex.
      rewrite tokenize_loop_nil. reflexivity.
    + change (join_literals (t :: t' :: ts))
        with (value t ++ c_space :: join_literals (t' :: ts)) in *.
      rewrite Hv in Hlen |- *.
      destruct fuel as [|f]; [simpl in Hlen; lia|].
      cbn [tokenize_loop app]. rewrite Hc.
      specialize (Hlex (c_space :: join_literals (t' :: ts)) is_space_32).
      rewrite Hv in Hlex. cbn [app] in Hlex. rewrite Hlex.
      assert (Hsp : forall g, (length (join_literals (t' :: ts)) < g)%nat ->
                tokenize_loop is_digit is_space g (c_space :: join_literals (t' :: ts))
                = Ok (t' :: ts)).
      { intros [|g] Hg; [lia|]. cbn [tokenize_loop]. rewrite is_space_32.
        apply IH. lia. }
      rewrite Hsp; [reflexivity|].
      cbn [length] in Hlen. rewrite length_app in Hlen. cbn [length] in Hlen. lia.
Qed.

Lemma lex_one_func w :
  w = w_abs \/ w = w_min -> lex_one is_digit w = Some (Token FUNC w, []).
Proof.
  intros [-> | ->]; unfold lex_one, patterns, w_abs, w_min; cbn [first_match];
    rewrite number_lower by reflexivity; reflexivity.
Qed.

Lemma tokenize_func_literal s toks t :
  tokenize is_digit is_space s = Ok toks -> In t toks ->
  value t = w_abs \/ value t = w_min -> type t = FUNC.
Proof.
  intros H Hin Hw. apply tokenize_loop_self_delim in H.
  destruct (proj1 (Forall_forall _ _) H t Hin) as [_ Hlex].
  specialize (Hlex [] I). rewrite app_nil_r, (lex_one_func _ Hw) in Hlex.
  injection Hlex as <-. reflexivity.
Qed.

Lemma assign_lower c x : is_lower c = true -> match_word w_assign (c :: x) = None.
Proof.
  intros Hc. apply lower_range in Hc. unfold match_word, w_assign. cbn [prefix].
  assert (Hnc : (c_colon =? c) = false) by (apply Z.eqb_neq; unfold c_colon; lia).
  rewrite Hnc. reflexivity.
Qed.

(** A lowercase run that does not start with [abs] or [min] is one [NAME]. *)
Lemma lex_one_name w :
  w <> [] -> Forall (fun c => is_lower c = true) w ->
  prefix w_abs w = false -> prefix w_min w = false ->
  lex_one is_digit w = Some (Token NAME w, []).
Proof.
  intros Hne Hlow Pa Pm. destruct w as [|c l]; [contradiction|].
  assert (Hc : is_lower c = true) by (inversion Hlow; assumption).
  unfold lex_one, patterns. cbn [first_match].
  rewrite (number_lower c l Hc), (assign_lower c l Hc).
  unfold match_func, match_word. rewrite Pa, Pm.
  pose proof (span_app is_lower (c :: l) [] Hlow I) as Hs. rewrite app_nil_r in Hs.
  unfold match_name. rewrite Hs. reflexivity.
Qed.

(** [abs] or [min] at the head of a lowercase run is taken as [FUNC]. *)
Lemma lex_one_func_prefix p w :
  p = w_abs \/ p = w_min -> lex_one is_digit (p ++ w) = Some (Token FUNC p, w).
Proof.
  intros [-> | ->]; unfold lex_one, patterns; cbn [first_match].
  - change (w_abs ++ w) with (97 :: [98; 115] ++ w).
    rewrite (number_lower 97 _ eq_refl), (assign_lower 97 _ eq_refl).
    reflexivity.
  - change (w_min ++ w) with (109 :: [105; 110] ++ w).
    rewrite (number_lower 109 _ eq_refl), (assign_lower 109 _ eq_refl).
    reflexivity.
Qed.

Lemma tokenize_func_prefix p w :
  p = w_abs \/ p = w_min -> w <> [] -> Forall (fun c => is_lower c = true) w ->
  prefix w_abs w = false -> prefix w_min w = false ->
  tokenize is_digit is_space (p ++ w) = Ok [Token FUNC p; Token NAME w].
Proof.
  intros Hp Hne Hlow Pa Pm.
  pose proof (lex_one_func_prefix p w Hp) as Hlex.
  pose proof (lex_one_name w Hne Hlow Pa Pm) as Hname.
  assert (Hcp : exists c p', p = c :: p' /\ is_space c = false).
  { destruct Hp as [-> | ->]; eexists; eexists; split; try reflexivity;
      apply ascii_not_space; lia. }
  destruct Hcp as (c & p' & -> & Hc).
  unfold tokenize. rewrite length_app. cbn [length Nat.add tokenize_loop app] in *.
  rewrite Hc, Hlex.
  destruct w as [|d w']; [contradiction|].
  assert (Hd : is_space d = false).
  { inversion Hlow as [|? ? Hl]; subst. apply lower_range in Hl.
    apply ascii_not_space; lia. }
  replace (length p' + length (d :: w'))%nat with (S (length p' + length w')) by (simpl; lia).
  cbn [tokenize_loop]. rewrite Hd, Hname, tokenize_loop_nil.
  reflexivity.
Qed.

(** ** What a match consumes *)

Lemma digits_nonspace d :
  Forall (fun c => is_digit c = true) d -> Forall (fun c => is_space c = false) d.
Proof. apply Forall_impl. exact digit_not_space. Qed.

Ltac nonspace :=
  repeat match goal with
  | H : Forall (fun c => is_digit c = true) ?d |- Forall _ ?d => exact (digits_nonspace d H)
  | H : Forall (fun c => is_digit c = true) (_ :: _) |- _ =>
      apply Forall_cons_iff in H; destruct H
  | H : is_digit ?x = true |- is_space ?x = false => exact (digit_not_space x H)
  | |- Forall _ (_ ++ _) => apply Forall_app; split
  | |- Forall _ (_ :: _) => constructor
  | |- Forall _ [] => constructor
  | |- is_space ?k = false =>
      apply ascii_not_space; unfold c_minus, c_plus, c_dot, c_e, c_E in *; lia
  end.

Lemma mantissa_split s1 m s2 :
  mantissa is_digit s1 = Some (m, s2) ->
  s1 = m ++ s2 /\ m <> [] /\ Forall (fun c => is_space c = false) m.
Proof.
  unfold mantissa. destruct (span is_digit s1) as [d t] eqn:Es.
  apply span_spec in Es. destruct Es as (-> & Hd & _). intros H.
  destruct d as [|d0 d'].
  - destruct t as [|c u]; simpl in H; [discriminate H|].
    destruct (c =? c_dot) eqn:Ec; [|discriminate H].
    apply Z.eqb_eq in Ec; subst c.
    destruct (span is_digit u) as [d2 v] eqn:Es2.
    apply span_spec in Es2. destruct Es2 as (-> & Hd2 & _).
    destruct d2 as [|x d2]; [discriminate H|]. injection H as <- <-.
    split; [reflexivity|]. split; [discriminate|]. nonspace.
  - destruct t as [|c u].
    + injection H as <- <-. split; [reflexivity|]. split; [discriminate|]. nonspace.
    + destruct (c =? c_dot) eqn:Ec.
      * apply Z.eqb_eq in Ec; subst c.
        destruct (span is_digit u) as [d2 v] eqn:Es2.
        apply span_spec in Es2. destruct Es2 as (-> & Hd2 & _).
        injection H as <- <-. split; [simpl; rewrite <- app_assoc; reflexivity|].
        split; [discriminate|]. nonspace.
      * injection H as <- <-. split; [reflexivity|]. split; [discriminate|]. nonspace.
Qed.

Lemma exponent_split s e r :
  exponent is_digit s = (e, r) -> s = e ++ r /\ Forall (fun c => is_space c = false) e.
Proof.
  unfold exponent. destruct s as [|c t]; [intros H; injection H as <- <-; auto|].
  destruct ((c =? c_e) || (c =? c_E)) eqn:Hc; [|intros H; injection H as <- <-; auto].
  assert (Hcs : is_space c = false).
  { apply orb_true_iff in Hc. destruct Hc as [Hc|Hc]; apply Z.eqb_eq in Hc; subst c; nonspace. }
  destruct t as [|c0 t''].
  - simpl. intros H; injection H as <- <-. auto.
  - destruct ((c0 =? c_plus) || (c0 =? c_minus)) eqn:Hs.
    + assert (Hc0 : is_space c0 = false).
      { apply orb_true_iff in Hs. destruct Hs as [Hs|Hs]; apply Z.eqb_eq in Hs; subst c0; nonspace. }
      destruct (span is_digit t'') as [d v] eqn:Ed.
      apply span_spec in Ed. destruct Ed as (-> & Hd & _).
      destruct d as [|d0 d]; intros H; injection H as <- <-; [auto|].
      split; [reflexivity|]. nonspace; assumption.
    + destruct (span is_digit (c0 :: t'')) as [d v] eqn:Ed.
      apply span_spec in Ed. destruct Ed as (Ed & Hd & _).
      destruct d as [|d0 d]; intros H; injection H as <- <-; [auto|].
      split; [rewrite Ed; reflexivity|]. nonspace; assumption.
Qed.

Lemma opt_minus_split s sg s1 :
  opt_minus s = (sg, s1) -> s = sg ++ s1 /\ Forall (fun c => is_space c = false) sg.
Proof.
  intros H. destruct (opt_minus_cases _ _ _ H) as [[-> ->] | [-> ->]];
    split; try reflexivity; nonspace.
Qed.

Lemma number_split s lit r :
  match_number is_digit s = Some (lit, r) ->
  s = lit ++ r /\ lit <> [] /\ Forall (fun c => is_space c = false) lit.
Proof.
  unfold match_number. destruct (opt_minus s) as [sg s1] eqn:Eo.
  destruct (mantissa is_digit s1) as [[m s2]|] eqn:Em; [|discriminate].
  destruct (exponent is_digit s2) as [e s3] eqn:Ee.
  intros H; injection H as <- <-.
  apply opt_minus_split in Eo. apply mantissa_split in Em. apply exponent_split in Ee.
  destruct Eo as [-> Hsg], Em as (-> & Hm & Hms), Ee as [-> He].
  split; [rewrite !app_assoc; reflexivity|].
  split; [destruct sg, m; simpl; congruence|]. nonspace; assumption.
Qed.

Lemma prefix_spec w s : prefix w s = true -> s = w ++ skipn (length w) s.
Proof.
  revert s. induction w as [|a w IH]; intros s H; [reflexivity|].
  destruct s as [|c s]; [discriminate|]. simpl in H.
  apply andb_true_iff in H. destruct H as [Ha H]. apply Z.eqb_eq in Ha. subst c.
  simpl. f_equal. exact (IH s H).
Qed.

Lemma match_word_split w s lit r :
  match_word w s = Some (lit, r) -> s = lit ++ r.
Proof.
  unfold match_word. destruct (prefix w s) eqn:P; [|discriminate].
  intros H; injection H as <- <-. exact (prefix_spec w s P).
Qed.

Lemma match_name_split s lit r :
  match_name s = Some (lit, r) ->
  s = lit ++ r /\ lit <> [] /\ Forall (fun c => is_space c = false) lit.
Proof.
  unfold match_name. destruct (span is_lower s) as [a b] eqn:Es.
  apply span_spec in Es. destruct Es as (-> & Hl & _).
  destruct a as [|c l]; [discriminate|]. intros H; injection H as <- <-.
  split; [reflexivity|]. split; [discriminate|].
  revert Hl. apply Forall_impl. intros x Hx. apply lower_range in Hx.
  apply ascii_not_space; lia.
Qed.

Lemma match_char_split k s lit r :
  match_char k s = Some (lit, r) -> s = lit ++ r.
Proof.
  unfold match_char. destruct s as [|d t]; [discriminate|].
  destruct (d =? k); intros H; [injection H as <- <-; reflexivity | discriminate].
Qed.

Lemma match_op_split s lit r : match_op s = Some (lit, r) -> s = lit ++ r.
Proof.
  unfold match_op. destruct s as [|d t]; [discriminate|].
  destruct (_ || _); intros H; [injection H as <- <-; reflexivity | discriminate].
Qed.

(** [first_match] reports the kind of the pattern that matched. *)
Lemma first_match_spec ps s t r :
  first_match ps s = Some (t, r) ->
  exists m, In (type t, m) ps /\ m s = Some (value t, r).
Proof.
  induction ps as [|[k m] ps IH]; simpl; [discriminate|].
  destruct (m s) as [[lit rest]|] eqn:Em.
  - intros H; injection H as <- <-. exists m. simpl. auto.
  - intros H. destruct (IH H) as (m' & Hin & Hm). eauto.
Qed.

(** A token's literal is a nonempty prefix of the text without whitespace,
    and lexing resumes right after it. *)
Lemma lex_one_split s t r :
  lex_one is_digit s = Some (t, r) ->
  s = value t ++ r /\ value t <> [] /\ Forall (fun c => is_space c = false) (value t).
Proof.
  intros H. pose proof H as H0.
  apply lex_one_self_delim in H0. destruct H0 as ((c & l & Hv & Hc) & _).
  apply first_match_spec in H. destruct H as (m & Hin & Hm).
  unfold patterns in Hin. simpl in Hin.
  repeat destruct Hin as [Hin | Hin]; try contradiction; injection Hin as Hk <-;
    [ exact (number_split _ _ _ Hm) | .. ];
    (split; [ first [ exact (match_word_split _ _ _ _ Hm)
                    | exact (match_char_split _ _ _ _ Hm)
                    | exact (match_op_split _ _ _ Hm)
                    | exact (proj1 (match_name_split _ _ _ Hm))
                    | unfold match_func in Hm; destruct (match_word w_abs s) as [[a b]|] eqn:Ew;
                      [injection Hm as -> ->; exact (match_word_split _ _ _ _ Ew)
                      | exact (match_word_split _ _ _ _ Hm)] ] |]);
    (split; [rewrite Hv; discriminate|]);
    first
      [ exact (proj2 (proj2 (match_name_split _ _ _ Hm)))
      | apply match_word_lit in Hm + apply match_char_lit in Hm + apply match_op_lit in Hm
        + apply match_func_lit in Hm;
        repeat match type of Hm with
        | _ \/ _ => destruct Hm as [Hm | Hm]
        end; rewrite Hm; unfold w_assign, w_abs, w_min, c_colon, c_eq, c_lparen, c_rparen,
          c_lbrack, c_rbrack, c_comma, c_semicolon, c_plus, c_minus;
        repeat constructor; apply ascii_not_space; lia ].
Qed.

(** ** The tokenize loop *)

Lemma tokenize_loop_forall (P : token -> Prop) fuel s toks :
  (forall s' t r, lex_one is_digit s' = Some (t, r) -> P t) ->
  tokenize_loop is_digit is_space fuel s = Ok toks -> Forall P toks.
Proof.
  intros HP. revert s toks. induction fuel as [|f IH]; intros s toks H; simpl in H.
  - destruct s; [injection H as <-; constructor | discriminate].
  - destruct s as [|c t]; [injection H as <-; constructor|].
    destruct (is_space c); [exact (IH _ _ H)|].
    destruct (lex_one is_digit (c :: t)) as [[tok rest]|] eqn:E; [|discriminate].
    destruct (tokenize_loop is_digit is_space f rest) as [toks'|] eqn:Et; [|discriminate].
    injection H as <-. constructor; [exact (HP _ _ _ E) | exact (IH _ _ Et)].
Qed.

(** The loop fails only with SyntaxError, or for want of iterations when
    the text is longer than the budget. *)
Lemma tokenize_loop_error fuel s e :
  tokenize_loop is_digit is_space fuel s = Err e -> e = SyntaxError \/ (fuel < length s)%nat.
Proof.
  revert s. induction fuel as [|f IH]; intros s H; simpl in H.
  - destruct s; [discriminate | right; simpl; lia].
  - destruct s as [|c t]; [discriminate|].
    destruct (is_space c).
    + destruct (IH _ H) as [-> | Hl]; [left; reflexivity | right; simpl; lia].
    + destruct (lex_one is_digit (c :: t)) as [[tok rest]|] eqn:E;
        [|injection H as <-; left; reflexivity].
      destruct (tokenize_loop is_digit is_space f rest) as [toks'|] eqn:Et; [discriminate|].
      injection H as ->. destruct (IH _ Et) as [-> | Hl]; [left; reflexivity|].
      right. destruct (lex_one_split _ _ _ E) as (Hs & Hne & _).
      rewrite Hs, length_app. destruct (value tok); [contradiction|]. simpl. lia.
Qed.

Lemma tokenize_loop_literals fuel s toks :
  tokenize_loop is_digit is_space fuel s = Ok toks ->
  concat (map value toks) = filter (fun c => negb (is_space c)) s.
Proof.
  revert s toks. induction fuel as [|f IH]; intros s toks H; simpl in H.
  - destruct s; [injection H as <-; reflexivity | discriminate].
  - destruct s as [|c t]; [injection H as <-; reflexivity|].
    destruct (is_space c) eqn:Hc; [simpl; rewrite Hc; exact (IH _ _ H)|].
    destruct (lex_one is_digit (c :: t)) as [[tok rest]|] eqn:E; [|discriminate].
    destruct (tokenize_loop is_digit is_space f rest) as [toks'|] eqn:Et; [|discriminate].
    injection H as <-. destruct (lex_one_split _ _ _ E) as (Hs & _ & Hns).
    rewrite Hs, filter_app. simpl. rewrite (IH _ _ Et). f_equal.
    clear Hs E Et IH. induction Hns as [|x l Hx Hl IHl]; [reflexivity|].
    simpl. rewrite Hx. simpl. f_equal. exact IHl.
Qed.

(** The literal of an [OP] token is [+] or [-], that of a [FUNC] token
    [abs] or [min]. *)
Lemma lex_one_operator s t r :
  lex_one is_digit s = Some (t, r) ->
  (type t = OP -> value t = op_plus \/ value t = op_minus) /\
  (type t = FUNC -> value t = w_abs \/ value t = w_min).
Proof.
  intros H. apply first_match_spec in H. destruct H as (m & Hin & Hm).
  unfold patterns in Hin. simpl in Hin.
  repeat destruct Hin as [Hin | Hin]; try contradiction; injection Hin as Hk <-;
    rewrite <- Hk; split; intros Hty; try discriminate Hty.
  - exact (match_func_lit _ _ _ Hm).
  - exact (match_op_lit _ _ _ Hm).
Qed.

End LexerFacts.

(** The ASCII instance satisfies the assumptions of the lexer lemmas. *)
Ltac ascii_classes :=
  intros ?c; unfold ascii_isdigit, ascii_isspace;
  first
    [ intros; reflexivity
    | destruct (Z.leb_spec 48 c), (Z.leb_spec c 57), (Z.leb_spec 9 c),
        (Z.leb_spec c 13), (Z.leb_spec 28 c), (Z.leb_spec c 32);
      simpl; intros; try discriminate; try reflexivity; lia ].

(** * Evaluation and XML lemmas *)

Lemma sum_float_loop_dict f c l d :
  In (VDict d) l -> sum_float_loop f c l = Err TypeError.
Proof.
  revert f c. induction l as [|x l IH]; intros f c Hin; [contradiction|].
  destruct Hin as [-> | Hin]; [reflexivity|].
  destruct x as [[|x]|dx]; simpl; [apply IH; exact Hin | apply IH; exact Hin | reflexivity].
Qed.

Lemma py_sum_dict l d : In (VDict d) l -> py_sum l = Err TypeError.
Proof.
  induction l as [|x l IH]; intros Hin; [contradiction|].
  destruct Hin as [-> | Hin]; [reflexivity|].
  destruct x as [[|x]|dx]; simpl; [exact (IH Hin) | exact (sum_float_loop_dict _ _ _ _ Hin) | reflexivity].
Qed.

Lemma sum_float_loop_result f c l :
  sum_float_loop f c l = Err TypeError \/ exists x, sum_float_loop f c l = Ok (VNum x).
Proof.
  revert f c. induction l as [|[[|x]|dx] l IH]; intros f c; simpl; eauto.
Qed.

Lemma py_sum_result l : py_sum l = Err TypeError \/ exists x, py_sum l = Ok (VNum x).
Proof.
  induction l as [|[[|x]|dx] l IH]; simpl; eauto using sum_float_loop_result.
Qed.

Lemma py_sum_error l e : py_sum l = Err e -> e = TypeError.
Proof.
  intros H. destruct (py_sum_result l) as [E | [x E]]; rewrite E in H; congruence.
Qed.

Lemma py_sum_num l v : py_sum l = Ok v -> exists x, v = VNum x.
Proof.
  intros H. destruct (py_sum_result l) as [E | [x E]]; rewrite E in H; [discriminate|].
  injection H as <-. eauto.
Qed.

Lemma py_min_from_num q l v : py_min_from (VNum q) l = Ok v -> exists q', v = VNum q'.
Proof.
  revert q. induction l as [|[x|dx] l IH]; intros q H; simpl in H.
  - injection H as <-. eauto.
  - destruct (b64_lt (as_float x) (as_float q)); exact (IH _ H).
  - discriminate.
Qed.

Lemma py_min_from_dict cur l d :
  In (VDict d) (cur :: l) -> l <> [] -> py_min_from cur l = Err TypeError.
Proof.
  revert cur. induction l as [|x l IH]; intros cur Hin Hne; [contradiction|].
  simpl. destruct x as [x|dx], cur as [c|dc]; simpl; try reflexivity.
  destruct Hin as [Hc | [Hx | Hin]]; try discriminate.
  destruct l as [|y l]; [contradiction|].
  destruct (b64_lt (as_float x) (as_float c)); apply IH; simpl; auto; discriminate.
Qed.

Lemma text_eqb_true a b : text_eqb a b = true -> a = b.
Proof. unfold text_eqb. destruct (list_eq_dec Z.eq_dec a b); congruence. Qed.

(** * Properties *)

Local Open Scope string_scope.

(** The number [float(z)] for an integer [z], and that number as a value. *)
Definition num_z (z : Z) : num := NFloat (b64_of_Q (inject_Z z) false).
Definition float_z (z : Z) : Value := VNum (num_z z).

(** ** Concrete documents *)

(** C3: the nested-dictionary document parses to
    [{a: {x: 1, y: {z: 2}}}]; its XML tags the entry of [y] as a dict. *)
Definition c3_env : dict Value :=
  [(txt "a", VDict [(txt "x", float_z 1); (txt "y", VDict [(txt "z", float_z 2)])])].

Lemma run_c3_document : run "a := ([x: 1, y: ([z: 2])]);" = Ok c3_env.
Proof. vm_compute. reflexivity. Qed.

Lemma to_xml_c3 :
  to_xml c3_env =
  Element "config" [] None
    [Element "entry" [("name", txt "a"); ("type", txt "dict")] None
       [Element "entry" [("name", txt "x"); ("type", txt "number")] (Some (num_z 1)) [];
        Element "entry" [("name", txt "y"); ("type", txt "dict")] None
          [Element "entry" [("name", txt "z"); ("type", txt "number")] (Some (num_z 2)) []]]].
Proof. reflexivity. Qed.

(** ** C3 *)

(** C3: [a := ([x: 1, y: ([z: 2])]);] parses to [{a: {x: 1, y: {z: 2}}}]; a
    value opening with LParen is a dictionary exactly when the next token is
    LBracket, an expression otherwise; the XML entry of [y] has type dict. *)
Theorem c3_nested_dict_document :
  run "a := ([x: 1, y: ([z: 2])]);" = Ok c3_env /\
  (forall is_digit decimal f st tok nxt,
     peek st = Some tok -> type tok = LPAREN ->
     nth_error (tokens st) (S (pos st)) = Some nxt ->
     parse_value is_digit decimal (S f) st =
       if kind_eqb (type nxt) LBRACK then parse_dict is_digit decimal f st
       else parse_expr is_digit decimal f st) /\
  (exists kids,
     to_xml c3_env =
       Element "config" []  None [Element "entry" [("name", txt "a"); ("type", txt "dict")] None kids] /\
     In (Element "entry" [("name", txt "y"); ("type", txt "dict")] None
           [Element "entry" [("name", txt "z"); ("type", txt "number")] (Some (num_z 2)) []]) kids).
Proof.
  split; [exact run_c3_document|]. split.
  - intros is_digit decimal f st tok nxt Hp Ht Hn. cbn [parse_value]. rewrite Hp, Ht, Hn. reflexivity.
  - eexists. split; [rewrite to_xml_c3; reflexivity|]. simpl. auto.
Qed.

Lemma c3_witness :
  run "a := ([x: 1, y: ([z: 2])]);" = Ok c3_env /\
  parse_value ascii_isdigit ascii_decimal 3%nat
    (PState [Token LPAREN (txt "("); Token LBRACK (txt "["); Token RBRACK (txt "]");
             Token RPAREN (txt ")")] 0%nat []) =
  parse_dict ascii_isdigit ascii_decimal 2%nat
    (PState [Token LPAREN (txt "("); Token LBRACK (txt "["); Token RBRACK (txt "]");
             Token RPAREN (txt ")")] 0%nat []).
Proof.
  destruct c3_nested_dict_document as [H1 [H2 _]]. split; [exact H1|].
  apply (H2 ascii_isdigit ascii_decimal 2%nat _ (Token LPAREN (txt "(")) (Token LBRACK (txt "[")));
    reflexivity.
Defined.

(** ** C10 *)

(** C10: [parse_expr] checks no arity: an operator or function followed
    directly by RParen reaches [eval_expr] with no arguments; in particular
    [a := (+);] binds [a] to 0. *)
Theorem c10_empty_operator_accepted :
  (forall is_digit decimal f st lp op rp,
     nth_error (tokens st) (pos st) = Some lp -> type lp = LPAREN ->
     nth_error (tokens st) (S (pos st)) = Some op -> (type op = OP \/ type op = FUNC) ->
     nth_error (tokens st) (S (S (pos st))) = Some rp -> type rp = RPAREN ->
     parse_expr is_digit decimal (S (S f)) st =
       match eval_expr (value op) [] with
       | Ok v => Ok (v, PState (tokens st) (S (S (S (pos st)))) (env st))
       | Err e => Err e
       end) /\
  run "a := (+);" = Ok [(txt "a", VNum NInt0)].
Proof.
  split; [|vm_compute; reflexivity].
  intros is_digit decimal f st lp op rp Hl Hlt Ho Hot Hr Hrt.
  assert (P1 : peek st = Some lp) by exact Hl.
  assert (P2 : peek (advance st) = Some op) by exact Ho.
  assert (P3 : peek (advance (advance st)) = Some rp) by exact Hr.
  cbn [parse_expr parse_args_loop]. unfold consume. rewrite P1, Hlt. cbn [kind_eqb].
  rewrite P2.
  destruct Hot as [H | H]; rewrite H; cbn [kind_eqb];
    rewrite P3, Hrt; cbn [kind_eqb]; try (rewrite P3, Hrt; cbn [kind_eqb]);
    destruct (eval_expr (value op) []); reflexivity.
Qed.

Lemma c10_witness :
  parse_expr ascii_isdigit ascii_decimal 2%nat
    (PState [Token LPAREN (txt "("); Token OP (txt "+"); Token RPAREN (txt ")")] 0%nat []) =
  Ok (VNum NInt0, PState [Token LPAREN (txt "("); Token OP (txt "+"); Token RPAREN (txt ")")] 3%nat []).
Proof.
  destruct c10_empty_operator_accepted as [H _].
  rewrite (H ascii_isdigit ascii_decimal 0%nat _ (Token LPAREN (txt "(")) (Token OP (txt "+"))
             (Token RPAREN (txt ")"))); try reflexivity.
  left; reflexivity.
Defined.

(** ** C5, C6, C7: runs on concrete inputs *)

(** C5: an expression left open at the end of the tokens reaches
    [self.peek().type] with [peek() = None] and raises AttributeError, not
    SyntaxError; so does an open dictionary, and a lone [(] at the end raises
    IndexError.  A closer missing where [consume] is called (the semicolon,
    or the [)] after a closed dictionary) raises SyntaxError. *)
Theorem c5_unclosed_at_end_attribute_error :
  run "a := (+ 1" = Err AttributeError /\
  run "a := ([x: 1" = Err AttributeError /\
  run "a := ([x: 1, " = Err AttributeError /\
  run "a := (" = Err IndexError /\
  run "a := 1" = Err SyntaxError /\
  run "a := ([x: 1]" = Err SyntaxError.
Proof. vm_compute. repeat split. Qed.

(** C6 (counterexample): [(abs)] does not raise SyntaxError. *)
Lemma c6_abs_no_args_not_syntax_error : run "a := (abs);" <> Err SyntaxError.
Proof. vm_compute. discriminate. Qed.

(** C6 (amended): [abs] with no argument evaluates [args[0]] on the empty
    list, so the parse aborts with IndexError and returns no environment. *)
Theorem c6_abs_no_args_index_error :
  eval_expr w_abs [] = Err IndexError /\ run "a := (abs);" = Err IndexError.
Proof. split; vm_compute; reflexivity. Qed.

(** C7 (counterexample): [absolute] is lexed as Func [abs] then Name [olute]. *)
Lemma c7_absolute_split :
  tokenize_ascii "absolute" = Ok [Token FUNC (txt "abs"); Token NAME (txt "olute")] /\
  tokenize_ascii "minute" = Ok [Token FUNC (txt "min"); Token NAME (txt "ute")].
Proof. split; vm_compute; reflexivity. Qed.

(** ** C1: the operator table *)

Local Open Scope Q_scope.

Lemma klt_fin (p q : Q) : klt (KFin p) (KFin q) = true <-> p < q.
Proof.
  simpl. rewrite negb_true_iff. split.
  - intros H. apply Qnot_le_lt. intros Hle. apply Qle_bool_iff in Hle. congruence.
  - intros H. destruct (Qle_bool q p) eqn:E; [|reflexivity].
    apply Qle_bool_iff in E. exfalso. exact (Qlt_not_le _ _ H E).
Qed.

Lemma klt_irrefl (a : ekey) : klt a a = false.
Proof.
  destruct a as [|q|]; try reflexivity.
  destruct (klt (KFin q) (KFin q)) eqn:E; [|reflexivity].
  apply klt_fin in E. exfalso. exact (Qlt_irrefl _ E).
Qed.

Lemma klt_trans (a b c : ekey) : klt a b = true -> klt b c = true -> klt a c = true.
Proof.
  destruct a as [|p|], b as [|q|], c as [|r|]; simpl; try discriminate; try reflexivity.
  intros H1 H2. apply (proj1 (klt_fin _ _)) in H1. apply (proj1 (klt_fin _ _)) in H2.
  apply klt_fin. exact (Qlt_trans _ _ _ H1 H2).
Qed.

Local Close Scope Q_scope.

(** [<] on floats is a strict partial order, NaN included (NaN is
    incomparable). *)
Lemma b64_lt_irrefl (x : b64) : b64_lt x x = false.
Proof. unfold b64_lt. destruct (key x); [apply klt_irrefl | reflexivity]. Qed.

Lemma b64_lt_trans (x y z : b64) : b64_lt x y = true -> b64_lt y z = true -> b64_lt x z = true.
Proof.
  unfold b64_lt. destruct (key x), (key y), (key z); try discriminate. apply klt_trans.
Qed.

(** Without NaN, [x <= y] is [not (y < x)]. *)
Lemma b64_le_not_lt (x y : b64) :
  key x <> None -> key y <> None -> b64_le x y = negb (b64_lt y x).
Proof.
  unfold b64_le, b64_lt. destruct (key x), (key y); congruence.
Qed.

Definition num_lt (x y : num) : bool := b64_lt (as_float x) (as_float y).

(** The loop of [min]: the result is one of the items, no item is less than
    it, and it is the start value or less than it. *)
Lemma py_min_from_nums (c : num) (xs : list num) :
  exists m, py_min_from (VNum c) (map VNum xs) = Ok (VNum m) /\ In m (c :: xs) /\
    Forall (fun y => num_lt y m = false) (c :: xs) /\ (m = c \/ num_lt m c = true).
Proof.
  unfold num_lt. revert c. induction xs as [|x xs IH]; intros c; simpl.
  - exists c. repeat split; auto. constructor; [apply b64_lt_irrefl | constructor].
  - destruct (b64_lt (as_float x) (as_float c)) eqn:Hxc.
    + destruct (IH x) as (m & Hm & Hin & Hall & Hmx). exists m.
      split; [exact Hm|]. split; [simpl in *; tauto|].
      assert (Hcm : b64_lt (as_float c) (as_float m) = false).
      { destruct (b64_lt (as_float c) (as_float m)) eqn:E; [|reflexivity]. exfalso.
        destruct Hmx as [-> | Hmx].
        - pose proof (b64_lt_trans _ _ _ Hxc E) as Hxx.
          rewrite b64_lt_irrefl in Hxx. discriminate.
        - pose proof (b64_lt_trans _ _ _ (b64_lt_trans _ _ _ E Hmx) Hxc) as Hcc.
          rewrite b64_lt_irrefl in Hcc. discriminate. }
      split; [constructor; assumption|]. right.
      destruct Hmx as [-> | Hmx]; [exact Hxc | exact (b64_lt_trans _ _ _ Hmx Hxc)].
    + destruct (IH c) as (m & Hm & Hin & Hall & Hmc). exists m.
      split; [exact Hm|]. split; [simpl in *; tauto|].
      inversion Hall as [|? ? Hc Hrest]; subst.
      assert (Hxm : b64_lt (as_float x) (as_float m) = false).
      { destruct Hmc as [-> | Hmc]; [exact Hxc|].
        destruct (b64_lt (as_float x) (as_float m)) eqn:E; [|reflexivity].
        rewrite (b64_lt_trans _ _ _ E Hmc) in Hxc. discriminate. }
      split; [repeat constructor; assumption|]. exact Hmc.
Qed.

Lemma sum_float_loop_nums (f c : b64) (xs : list num) :
  exists s, sum_float_loop f c (map VNum xs) = Ok (VNum s).
Proof.
  revert f c. induction xs as [|[|x] xs IH]; intros f c; simpl; eauto.
Qed.

Lemma py_sum_nums (xs : list num) : exists s, py_sum (map VNum xs) = Ok (VNum s).
Proof.
  induction xs as [|[|x] xs IH]; simpl; eauto using sum_float_loop_nums.
Qed.

(** The number the program makes of a literal. *)
Definition float_lit (s : String.string) : Value :=
  VNum (NFloat (float_of ascii_isdigit ascii_decimal (txt s))).

Definition c1_env : dict Value :=
  [(txt "a"%string, float_z 6); (txt "b"%string, float_z 5); (txt "c"%string, float_z 5);
   (txt "d"%string, float_z 2); (txt "e"%string, float_z 7)].

(** C1 (corrected): on numeric arguments the operators compute in Python's
    numbers, floats being IEEE binary64: [+] is [sum(args)] (CPython's
    float sum, rounded; [0], an int, for no arguments), [-] is
    [args[0] - sum(args[1:])], so [-] of one argument returns it unchanged
    (also [-0.0], [inf], [nan] and the int [0]), [abs] is [abs(args[0])],
    and [min] returns an argument that no argument is strictly less than,
    which is a least argument when no argument is NaN.  The table's
    examples hold exactly ([(+ 1 2 3)] = 6, [(- 10 3 2)] = 5, [(- 5)] = 5,
    [(min 4 2 9)] = 2, [(abs (- 7))] = 7), while [(+ 0.1 0.2)] is the
    float [0.30000000000000004], not [0.3]. *)
Theorem c1_float_operator_table :
  (forall xs, exists s,
     py_sum (map VNum xs) = Ok (VNum s) /\ eval_expr op_plus (map VNum xs) = Ok (VNum s)) /\
  (forall a xs, exists s,
     py_sum (map VNum xs) = Ok (VNum s) /\
     eval_expr op_minus (VNum a :: map VNum xs) = py_sub (VNum a) (VNum s)) /\
  (forall a, eval_expr op_minus [VNum a] = Ok (VNum a)) /\
  (forall a xs, eval_expr w_abs (VNum a :: map VNum xs) = py_abs (VNum a)) /\
  (forall x xs, exists m,
     eval_expr w_min (map VNum (x :: xs)) = Ok (VNum m) /\ In m (x :: xs) /\
     Forall (fun y => b64_lt (as_float y) (as_float m) = false) (x :: xs) /\
     (Forall (fun y => key (as_float y) <> None) (x :: xs) ->
      Forall (fun y => b64_le (as_float m) (as_float y) = true) (x :: xs))) /\
  run "a := (+ 1 2 3); b := (- 10 3 2); c := (- 5); d := (min 4 2 9); e := (abs (- 7));"%string
    = Ok c1_env /\
  run "a := (+ 0.1 0.2);"%string = Ok [(txt "a"%string, float_lit "0.30000000000000004"%string)] /\
  float_lit "0.30000000000000004"%string <> float_lit "0.3"%string.
Proof.
  split; [|split; [|split; [|split; [|split; [|split; [|split]]]]]].
  - intros xs. destruct (py_sum_nums xs) as [s Hs]. exists s. split; [exact Hs|].
    unfold eval_expr. simpl text_eqb. cbv iota. exact Hs.
  - intros a xs. destruct (py_sum_nums xs) as [s Hs]. exists s. split; [exact Hs|].
    unfold eval_expr. simpl text_eqb. cbv iota. rewrite Hs. reflexivity.
  - intros [|[[]|[]| |[] m e]]; reflexivity.
  - reflexivity.
  - intros x xs. destruct (py_min_from_nums x xs) as (m & Hm & Hin & Hall & _).
    exists m. split; [exact Hm|]. split; [exact Hin|]. split; [exact Hall|].
    intros Hnn. rewrite Forall_forall in *. intros y Hy.
    rewrite (b64_le_not_lt _ _ (Hnn _ Hin) (Hnn _ Hy)).
    unfold num_lt in Hall. rewrite (Hall _ Hy). reflexivity.
  - vm_compute. reflexivity.
  - vm_compute. reflexivity.
  - vm_compute. discriminate.
Qed.

Lemma c1_witness :
  Forall (fun y => key (as_float y) <> None) [num_z 4; num_z 2; num_z 9] /\
  exists m, eval_expr w_min (map VNum [num_z 4; num_z 2; num_z 9]) = Ok (VNum m) /\
    Forall (fun y => b64_le (as_float m) (as_float y) = true) [num_z 4; num_z 2; num_z 9].
Proof.
  assert (Hnn : Forall (fun y => key (as_float y) <> None) [num_z 4; num_z 2; num_z 9]).
  { repeat constructor; vm_compute; discriminate. }
  split; [exact Hnn|].
  destruct (proj1 (proj2 (proj2 (proj2 (proj2 c1_float_operator_table)))) (num_z 4) [num_z 2; num_z 9])
    as (m & Hm & _ & _ & Hle).
  exists m. split; [exact Hm | exact (Hle Hnn)].
Defined.

(** C1 (counterexample): with a NaN argument [min] is not the least
    argument and depends on the order: [1e400] is [inf], [(- 1e400 1e400)]
    is [nan], [(min n 1)] is [nan], which is not [<= 1], and [(min 1 n)]
    is [1]. *)
Lemma c1_min_nan_not_least :
  run "n := (- 1e400 1e400); a := (min n 1); b := (min 1 n);"%string =
    Ok [(txt "n"%string, VNum (NFloat B64NaN)); (txt "a"%string, VNum (NFloat B64NaN));
        (txt "b"%string, float_z 1)] /\
  float_lit "1e400"%string = VNum (NFloat (B64Inf false)) /\
  b64_le B64NaN (as_float (num_z 1)) = false.
Proof. split; [|split]; vm_compute; reflexivity. Qed.

(** ** The parser never binds names while parsing a value *)

Lemma consume_ok (typ : kind) (st st' : pstate) (t : token) :
  consume typ st = Ok (t, st') -> st' = advance st /\ peek st = Some t /\ type t = typ.
Proof.
  unfold consume. destruct (peek st) as [t0|]; [|discriminate].
  destruct (kind_eqb (type t0) typ) eqn:Hk; [|discriminate].
  intros H; inversion H; subst. repeat split.
  destruct (type t), typ; simpl in Hk; congruence.
Qed.

(** Case analysis on every [match] of a hypothesis [H] until it is an
    equation between results. *)
Ltac split_matches H :=
  cbv zeta in H;
  repeat match type of H with
  | Err _ = Ok _ => discriminate H
  | Ok _ = Ok _ => injection H as; subst
  | context [match ?m with _ => _ end] => let E := fresh "E" in destruct m eqn:E
  end.

Section Preserve.

Variable is_digit : char -> bool.
Variable decimal : char -> Z.

(** One unfolding step of each parsing function. *)
Lemma parse_value_S f st :
  parse_value is_digit decimal (S f) st =
  match peek st with
  | None => Err AttributeError
  | Some tok =>
      match type tok with
      | NUMBER => Ok (VNum (NFloat (float_of is_digit decimal (value tok))), advance st)
      | NAME =>
          match dict_get (value tok) (env st) with
          | Some v => Ok (v, advance st)
          | None => Err (NameError (value tok))
          end
      | LPAREN =>
          match nth_error (tokens st) (S (pos st)) with
          | None => Err IndexError
          | Some nxt =>
              if kind_eqb (type nxt) LBRACK then parse_dict is_digit decimal f st
              else parse_expr is_digit decimal f st
          end
      | _ => Err SyntaxError
      end
  end.
Proof. reflexivity. Qed.

Lemma parse_dict_S f st :
  parse_dict is_digit decimal (S f) st =
  let! (_, st) := consume LPAREN st in
  let! (_, st) := consume LBRACK st in
  let! (d, st) := parse_dict_loop is_digit decimal f [] st in
  let! (_, st) := consume RBRACK st in
  let! (_, st) := consume RPAREN st in
  Ok (VDict d, st).
Proof. reflexivity. Qed.

Lemma parse_dict_loop_S f d st :
  parse_dict_loop is_digit decimal (S f) d st =
  match peek st with
  | None => Err AttributeError
  | Some t =>
      if kind_eqb (type t) RBRACK then Ok (d, st)
      else
        let! (key, st) := consume NAME st in
        let! (_, st) := consume COLON st in
        let! (v, st) := parse_value is_digit decimal f st in
        let d := dict_set (value key) v d in
        match peek st with
        | None => Err AttributeError
        | Some t' =>
            if kind_eqb (type t') COMMA then
              let! (_, st) := consume COMMA st in parse_dict_loop is_digit decimal f d st
            else parse_dict_loop is_digit decimal f d st
        end
  end.
Proof. reflexivity. Qed.

Lemma parse_expr_S f st :
  parse_expr is_digit decimal (S f) st =
  let! (_, st) := consume LPAREN st in
  match peek st with
  | None => Err AttributeError
  | Some tok =>
      let opr :=
        if kind_eqb (type tok) OP then consume OP st
        else if kind_eqb (type tok) FUNC then consume FUNC st
        else Err SyntaxError in
      let! (op, st) := opr in
      let! (args, st) := parse_args_loop is_digit decimal f [] st in
      let! (_, st) := consume RPAREN st in
      match eval_expr (value op) args with
      | Ok v => Ok (v, st)
      | Err e => Err e
      end
  end.
Proof. reflexivity. Qed.

Lemma parse_args_loop_S f args st :
  parse_args_loop is_digit decimal (S f) args st =
  match peek st with
  | None => Err AttributeError
  | Some t =>
      if kind_eqb (type t) RPAREN then Ok (args, st)
      else
        let! (v, st) := parse_value is_digit decimal f st in
        parse_args_loop is_digit decimal f (args ++ [v]) st
  end.
Proof. reflexivity. Qed.

(** What every parsing function keeps: the tokens and the environment. *)
Definition same_frame (st st' : pstate) : Prop :=
  tokens st' = tokens st /\ env st' = env st.

Lemma same_frame_advance st : same_frame st (advance st).
Proof. split; reflexivity. Qed.

Lemma same_frame_trans a b c : same_frame a b -> same_frame b c -> same_frame a c.
Proof. unfold same_frame; intros [] []; split; congruence. Qed.

Ltac frame :=
  repeat match goal with
  | E : consume _ _ = Ok (_, _) |- _ =>
      apply consume_ok in E; destruct E as [E _]; subst
  end;
  repeat match goal with
  | H : same_frame _ _ |- _ => revert H
  end;
  unfold same_frame, advance; simpl; intros; intuition congruence.

Lemma parse_frame (fuel : nat) :
  (forall st v st', parse_value is_digit decimal fuel st = Ok (v, st') -> same_frame st st') /\
  (forall st v st', parse_dict is_digit decimal fuel st = Ok (v, st') -> same_frame st st') /\
  (forall d st d' st', parse_dict_loop is_digit decimal fuel d st = Ok (d', st') ->
     same_frame st st') /\
  (forall st v st', parse_expr is_digit decimal fuel st = Ok (v, st') -> same_frame st st') /\
  (forall a st a' st', parse_args_loop is_digit decimal fuel a st = Ok (a', st') ->
     same_frame st st').
Proof.
  induction fuel as [|f IH];
    [refine (conj _ (conj _ (conj _ (conj _ _)))); intros; discriminate|].
  destruct IH as (IHv & IHd & IHdl & IHe & IHa).
  refine (conj _ (conj _ (conj _ (conj _ _)))).
  - intros st v st' H. rewrite parse_value_S in H. split_matches H;
      try (apply same_frame_advance); eauto.
  - intros st v st' H. rewrite parse_dict_S in H. split_matches H.
    repeat match goal with
    | E : parse_dict_loop _ _ _ _ _ = Ok _ |- _ => apply IHdl in E
    end. frame.
  - intros d st d' st' H. rewrite parse_dict_loop_S in H. split_matches H;
      try (split; reflexivity);
      repeat match goal with
      | E : parse_dict_loop _ _ _ _ _ = Ok _ |- _ => apply IHdl in E
      | E : parse_value _ _ _ _ = Ok _ |- _ => apply IHv in E
      end; frame.
  - intros st v st' H. rewrite parse_expr_S in H. split_matches H;
      repeat match goal with
      | E : parse_args_loop _ _ _ _ _ = Ok _ |- _ => apply IHa in E
      | E : (if ?b then _ else _) = Ok _ |- _ => destruct b; try discriminate E
      end; frame.
  - intros a st a' st' H. rewrite parse_args_loop_S in H. split_matches H;
      try (split; reflexivity);
      repeat match goal with
      | E : parse_args_loop _ _ _ _ _ = Ok _ |- _ => apply IHa in E
      | E : parse_value _ _ _ _ = Ok _ |- _ => apply IHv in E
      end; frame.
Qed.

Lemma consume_at (typ : kind) (st : pstate) (t : token) :
  peek st = Some t -> type t = typ -> consume typ st = Ok (t, advance st).
Proof.
  intros Hp Ht. unfold consume. rewrite Hp, Ht. destruct typ; reflexivity.
Qed.

Lemma parse_assignment_ok fuel st u st' :
  parse_assignment is_digit decimal fuel st = Ok (u, st') ->
  exists name v st1, peek st = Some name /\ type name = NAME /\
    parse_value is_digit decimal fuel (advance (advance st)) = Ok (v, st1) /\
    env st' = dict_set (value name) v (env st).
Proof.
  unfold parse_assignment. intros H. split_matches H.
  apply consume_ok in E; destruct E as (-> & Hp & Ht).
  apply consume_ok in E1; destruct E1 as (-> & _ & _).
  apply consume_ok in E5; destruct E5 as (-> & _ & _).
  destruct (proj1 (parse_frame fuel) _ _ _ E3) as [_ Henv].
  exists t, v, p1. repeat split; auto.
  simpl. rewrite Henv. reflexivity.
Qed.

Lemma parse_assignment_tokens fuel st u st' :
  parse_assignment is_digit decimal fuel st = Ok (u, st') -> tokens st' = tokens st.
Proof.
  unfold parse_assignment. intros H. split_matches H.
  apply consume_ok in E; destruct E as (-> & _ & _).
  apply consume_ok in E1; destruct E1 as (-> & _ & _).
  apply consume_ok in E5; destruct E5 as (-> & _ & _).
  destruct (proj1 (parse_frame fuel) _ _ _ E3) as [Htok _].
  simpl in *. exact Htok.
Qed.

Lemma keys_dict_set {A} (k k0 : text) (v : A) (d : dict A) :
  In k (keys (dict_set k0 v d)) -> k = k0 \/ In k (keys d).
Proof.
  induction d as [|[k' v'] d IH]; simpl.
  - intros [-> | []]. left; reflexivity.
  - destruct (list_eq_dec Z.eq_dec k0 k') as [->|Hne]; simpl; [tauto|].
    intros [-> | Hin]; [tauto|]. destruct (IH Hin); tauto.
Qed.

(** Every binding of the result is bound before the loop or named by a
    [NAME] token of the input. *)
Lemma parse_program_keys vfuel fuel st e :
  parse_program is_digit decimal vfuel fuel st = Ok e -> forall k, In k (keys e) ->
  In k (keys (env st)) \/ exists t, In t (tokens st) /\ type t = NAME /\ value t = k.
Proof.
  revert st. induction fuel as [|f IH]; intros st H k Hk; simpl in H; [discriminate|].
  destruct (peek st) as [t|] eqn:Hp; [|injection H as <-; left; exact Hk].
  destruct (parse_assignment is_digit decimal vfuel st) as [[u st']|] eqn:Ea; [|discriminate].
  destruct (IH st' H k Hk) as [Hin | (t' & Ht' & Hty & Hv)].
  - destruct (parse_assignment_ok _ _ _ _ Ea) as (name & v & st1 & Hpn & Hty & _ & Henv).
    rewrite Henv in Hin. apply keys_dict_set in Hin. destruct Hin as [-> | Hin]; [|left; exact Hin].
    right. exists name. split; [|auto].
    unfold peek in Hpn. apply nth_error_In in Hpn. exact Hpn.
  - right. exists t'. rewrite (parse_assignment_tokens _ _ _ _ Ea) in Ht'. auto.
Qed.

(** The tokens not yet consumed. *)
Definition remaining (st : pstate) : nat := length (tokens st) - pos st.

Lemma peek_lt st t : peek st = Some t -> (pos st < length (tokens st))%nat.
Proof. unfold peek. intros H. apply nth_error_Some. congruence. Qed.

Ltac progress_facts :=
  repeat match goal with
  | E : consume _ _ = Ok (_, _) |- _ =>
      let Ep := fresh "Ep" in apply consume_ok in E; destruct E as (-> & Ep & _)
  | E : peek _ = Some _ |- _ => apply peek_lt in E
  | E : nth_error _ _ = Some _ |- _ =>
      assert (Some _ <> None) as E' by discriminate; rewrite <- E in E';
      apply nth_error_Some in E'; clear E
  end.

(** A parsed value consumes at least one token; the loops never go back. *)
Lemma parse_progress (fuel : nat) :
  (forall st v st', parse_value is_digit decimal fuel st = Ok (v, st') ->
     (pos st < length (tokens st) /\ pos st < pos st')%nat) /\
  (forall st v st', parse_dict is_digit decimal fuel st = Ok (v, st') ->
     (pos st < length (tokens st) /\ pos st < pos st')%nat) /\
  (forall d st d' st', parse_dict_loop is_digit decimal fuel d st = Ok (d', st') ->
     (pos st <= pos st')%nat) /\
  (forall st v st', parse_expr is_digit decimal fuel st = Ok (v, st') ->
     (pos st < length (tokens st) /\ pos st < pos st')%nat) /\
  (forall a st a' st', parse_args_loop is_digit decimal fuel a st = Ok (a', st') ->
     (pos st <= pos st')%nat).
Proof.
  induction fuel as [|f IH];
    [refine (conj _ (conj _ (conj _ (conj _ _)))); intros; discriminate|].
  destruct IH as (IHv & IHd & IHdl & IHe & IHa).
  refine (conj _ (conj _ (conj _ (conj _ _)))).
  - intros st v st' H. rewrite parse_value_S in H. split_matches H;
      try (apply IHd in H || apply IHe in H); progress_facts; simpl; lia.
  - intros st v st' H. rewrite parse_dict_S in H. split_matches H.
    repeat match goal with
    | E : parse_dict_loop _ _ _ _ _ = Ok _ |- _ => apply IHdl in E
    end; progress_facts; simpl in *; lia.
  - intros d st d' st' H. rewrite parse_dict_loop_S in H. split_matches H;
      try lia;
      repeat match goal with
      | E : parse_dict_loop _ _ _ _ _ = Ok _ |- _ => apply IHdl in E
      | E : parse_value _ _ _ _ = Ok _ |- _ => apply IHv in E; destruct E as [_ E]
      end; progress_facts; simpl in *; lia.
  - intros st v st' H. rewrite parse_expr_S in H. split_matches H;
      repeat match goal with
      | E : parse_args_loop _ _ _ _ _ = Ok _ |- _ => apply IHa in E
      | E : (if ?b then _ else _) = Ok _ |- _ => destruct b; try discriminate E
      end; progress_facts; simpl in *; lia.
  - intros a st a' st' H. rewrite parse_args_loop_S in H. split_matches H;
      try lia;
      repeat match goal with
      | E : parse_args_loop _ _ _ _ _ = Ok _ |- _ => apply IHa in E
      | E : parse_value _ _ _ _ = Ok _ |- _ => apply IHv in E; destruct E as [_ E]
      end; progress_facts; simpl in *; lia.
Qed.

Lemma py_min_from_error cur l e : py_min_from cur l = Err e -> e = TypeError.
Proof.
  revert cur. induction l as [|x l IH]; intros cur H; simpl in H; [discriminate|].
  destruct (py_lt x cur) as [[|]|e'] eqn:El; try exact (IH _ H).
  injection H as <-. destruct x, cur; simpl in El; congruence.
Qed.

Lemma eval_expr_no_fuel_error op args : eval_expr op args <> Err OutOfFuel.
Proof.
  unfold eval_expr.
  destruct (text_eqb op op_plus).
  { intros H. apply py_sum_error in H. discriminate. }
  destruct (text_eqb op op_minus).
  { destruct args as [|a rest]; [discriminate|].
    destruct (py_sum rest) as [v|e] eqn:E.
    - destruct a as [[]|], v as [[]|]; simpl; discriminate.
    - intros H. injection H as ->. apply py_sum_error in E. discriminate. }
  destruct (text_eqb op w_abs).
  { destruct args as [|[[]|] rest]; discriminate. }
  destruct (text_eqb op w_min); [|discriminate].
  destruct args as [|a rest]; [discriminate|].
  simpl. intros H. apply py_min_from_error in H. discriminate.
Qed.

Lemma consume_error typ st e : consume typ st = Err e -> e = SyntaxError.
Proof.
  unfold consume. destruct (peek st); [destruct (kind_eqb _ _)|]; congruence.
Qed.

Ltac split_errs H :=
  cbv zeta in H;
  repeat match type of H with
  | Ok _ = Err _ => discriminate H
  | Err ?a = Err ?b => first [discriminate H | injection H as; subst]
  | context [match ?m with _ => _ end] => let E := fresh "E" in destruct m eqn:E
  end.

Ltac fuel_facts IHv IHd IHdl IHe IHa :=
  repeat match goal with
  | E : parse_value _ _ _ _ = Err OutOfFuel |- _ => apply IHv in E
  | E : parse_dict _ _ _ _ = Err OutOfFuel |- _ => apply IHd in E
  | E : parse_dict_loop _ _ _ _ _ = Err OutOfFuel |- _ => apply IHdl in E
  | E : parse_expr _ _ _ _ = Err OutOfFuel |- _ => apply IHe in E
  | E : parse_args_loop _ _ _ _ _ = Err OutOfFuel |- _ => apply IHa in E
  | E : eval_expr _ _ = Err OutOfFuel |- _ => destruct (eval_expr_no_fuel_error _ _ E)
  | E : consume _ _ = Err OutOfFuel |- _ => apply consume_error in E; discriminate E
  | E : (if ?b then _ else _) = _ |- _ => destruct b; try discriminate E
  | E : parse_value _ _ ?f _ = Ok (_, _) |- _ =>
      let Hf := fresh "Hf" in let Hp := fresh "Hp" in
      destruct (proj1 (parse_frame f) _ _ _ E) as [Hf _];
      destruct (proj1 (parse_progress f) _ _ _ E) as [_ Hp];
      apply (f_equal (@length token)) in Hf; clear E
  | E : parse_dict_loop _ _ ?f _ _ = Ok (_, _) |- _ =>
      let Hf := fresh "Hf" in let Hp := fresh "Hp" in
      destruct (proj1 (proj2 (proj2 (parse_frame f))) _ _ _ _ E) as [Hf _];
      pose proof (proj1 (proj2 (proj2 (parse_progress f))) _ _ _ _ E) as Hp;
      apply (f_equal (@length token)) in Hf; clear E
  | E : parse_args_loop _ _ ?f _ _ = Ok (_, _) |- _ =>
      let Hf := fresh "Hf" in let Hp := fresh "Hp" in
      destruct (proj2 (proj2 (proj2 (proj2 (parse_frame f)))) _ _ _ _ E) as [Hf _];
      pose proof (proj2 (proj2 (proj2 (proj2 (parse_progress f)))) _ _ _ _ E) as Hp;
      apply (f_equal (@length token)) in Hf; clear E
  end; progress_facts; unfold remaining in *; simpl in *; lia.

(** A call given more than twice the remaining tokens never runs out of
    budget: every [OutOfFuel] comes with a small budget. *)
Lemma parse_fuel (fuel : nat) :
  (forall st, parse_value is_digit decimal fuel st = Err OutOfFuel ->
     (fuel <= 2 * remaining st + 1)%nat) /\
  (forall st, parse_dict is_digit decimal fuel st = Err OutOfFuel ->
     (fuel <= 2 * remaining st)%nat) /\
  (forall d st, parse_dict_loop is_digit decimal fuel d st = Err OutOfFuel ->
     (fuel <= 2 * remaining st + 2)%nat) /\
  (forall st, parse_expr is_digit decimal fuel st = Err OutOfFuel ->
     (fuel <= 2 * remaining st)%nat) /\
  (forall a st, parse_args_loop is_digit decimal fuel a st = Err OutOfFuel ->
     (fuel <= 2 * remaining st + 2)%nat).
Proof.
  induction fuel as [|f IH]; [refine (conj _ (conj _ (conj _ (conj _ _)))); intros; lia|].
  destruct IH as (IHv & IHd & IHdl & IHe & IHa).
  refine (conj _ (conj _ (conj _ (conj _ _)))).
  - intros st H. rewrite parse_value_S in H. split_errs H; fuel_facts IHv IHd IHdl IHe IHa.
  - intros st H. rewrite parse_dict_S in H. split_errs H; fuel_facts IHv IHd IHdl IHe IHa.
  - intros d st H. rewrite parse_dict_loop_S in H. split_errs H;
      fuel_facts IHv IHd IHdl IHe IHa.
  - intros st H. rewrite parse_expr_S in H. split_errs H; fuel_facts IHv IHd IHdl IHe IHa.
  - intros a st H. rewrite parse_args_loop_S in H. split_errs H;
      fuel_facts IHv IHd IHdl IHe IHa.
Qed.

Lemma parse_assignment_progress fuel st u st' :
  parse_assignment is_digit decimal fuel st = Ok (u, st') ->
  (remaining st' < remaining st)%nat.
Proof.
  intros H. pose proof (parse_assignment_tokens _ _ _ _ H) as Ht.
  unfold parse_assignment in H. split_matches H.
  destruct (proj1 (parse_progress fuel) _ _ _ E3) as [_ Hp].
  progress_facts. unfold remaining in *. simpl in *. rewrite Ht. lia.
Qed.

Lemma parse_assignment_fuel fuel st :
  (2 * remaining st + 1 < fuel)%nat ->
  parse_assignment is_digit decimal fuel st <> Err OutOfFuel.
Proof.
  intros Hf H. unfold parse_assignment in H. split_errs H;
    try (apply consume_error in H; discriminate H);
    try (apply consume_error in E; discriminate E);
    try (apply consume_error in E1; discriminate E1);
    try (apply consume_error in E5; discriminate E5).
  apply (proj1 (parse_fuel fuel)) in E3. progress_facts.
  unfold remaining in *. simpl in *. lia.
Qed.

Lemma parse_program_fuel vfuel fuel st :
  (2 * remaining st + 1 < vfuel)%nat ->
  parse_program is_digit decimal vfuel fuel st = Err OutOfFuel -> (fuel <= remaining st)%nat.
Proof.
  revert st. induction fuel as [|f IH]; intros st Hv H; simpl in H; [lia|].
  destruct (peek st) as [t|] eqn:Hp; [|discriminate].
  destruct (parse_assignment is_digit decimal vfuel st) as [[u st']|e] eqn:Ea.
  - pose proof (parse_assignment_progress _ _ _ _ Ea) as Hr.
    specialize (IH st' ltac:(lia) H). lia.
  - injection H as ->. destruct (parse_assignment_fuel _ _ Hv Ea).
Qed.

End Preserve.

(** ** Python dict assignment *)

Lemma dict_set_keys {A} (k : text) (v o : A) (d : dict A) :
  dict_get k d = Some o -> keys (dict_set k v d) = keys d.
Proof.
  induction d as [|[k' v'] d IH]; simpl; [discriminate|].
  destruct (list_eq_dec Z.eq_dec k k') as [->|Hne]; simpl; [reflexivity|].
  intros H. rewrite (IH H). reflexivity.
Qed.

Lemma dict_get_set_same {A} (k : text) (v : A) (d : dict A) :
  dict_get k (dict_set k v d) = Some v.
Proof.
  induction d as [|[k' v'] d IH]; simpl.
  - destruct (list_eq_dec Z.eq_dec k k); congruence.
  - destruct (list_eq_dec Z.eq_dec k k') as [->|Hne]; simpl.
    + destruct (list_eq_dec Z.eq_dec k' k'); congruence.
    + destruct (list_eq_dec Z.eq_dec k k'); [contradiction | exact IH].
Qed.

Lemma dict_get_set_other {A} (k y : text) (v : A) (d : dict A) :
  y <> k -> dict_get y (dict_set k v d) = dict_get y d.
Proof.
  intros Hyk. induction d as [|[k' v'] d IH]; simpl.
  - destruct (list_eq_dec Z.eq_dec y k); [contradiction | reflexivity].
  - destruct (list_eq_dec Z.eq_dec k k') as [->|Hne]; simpl.
    + destruct (list_eq_dec Z.eq_dec y k'); [contradiction | reflexivity].
    + destruct (list_eq_dec Z.eq_dec y k'); [reflexivity | exact IH].
Qed.

(** ** C2 *)

(** C2: a name becomes visible only once its assignment is complete: a Name
    parsed as a value that is not yet bound raises NameError with that name;
    parsing a value never binds anything; an assignment binds its name only
    after parsing its value (and semicolon) in the environment it started
    with.  So [a := a;] and [a := b; b := 1;] fail with NameError. *)
Theorem c2_name_visible_after_assignment (is_digit : char -> bool) (decimal : char -> Z) :
  (forall fuel st tok,
     peek st = Some tok -> type tok = NAME -> dict_get (value tok) (env st) = None ->
     parse_value is_digit decimal (S fuel) st = Err (NameError (value tok))) /\
  (forall fuel st v st',
     parse_value is_digit decimal fuel st = Ok (v, st') -> env st' = env st) /\
  (forall fuel st u st',
     parse_assignment is_digit decimal fuel st = Ok (u, st') ->
     exists name v st1, peek st = Some name /\ type name = NAME /\
       parse_value is_digit decimal fuel (advance (advance st)) = Ok (v, st1) /\
       env (advance (advance st)) = env st /\
       env st' = dict_set (value name) v (env st)) /\
  run "a := a;" = Err (NameError (txt "a")) /\
  run "a := b; b := 1;" = Err (NameError (txt "b")).
Proof.
  refine (conj _ (conj _ (conj _ (conj _ _)))).
  - intros fuel st tok Hp Ht Hg. rewrite parse_value_S, Hp, Ht, Hg. reflexivity.
  - intros fuel st v st' H. apply (proj1 (parse_frame is_digit decimal fuel)) in H.
    apply H.
  - intros fuel st u st' H. apply parse_assignment_ok in H.
    destruct H as (name & v & st1 & H1 & H2 & H3 & H4).
    exists name, v, st1. repeat split; auto.
  - vm_compute. reflexivity.
  - vm_compute. reflexivity.
Qed.

Definition c2_state : pstate := PState [Token NAME (txt "a")] 0 [].

Lemma c2_witness :
  parse_value ascii_isdigit ascii_decimal 1 c2_state = Err (NameError (txt "a")).
Proof.
  destruct (c2_name_visible_after_assignment ascii_isdigit ascii_decimal) as [H _].
  apply (H 0%nat c2_state (Token NAME (txt "a"))); reflexivity.
Defined.

(** ** C8 *)

(** C8: re-assigning a bound name succeeds whenever its statement parses;
    afterwards the name reads the new value, every other name reads what it
    read before, and the keys keep their order (the name stays where it was
    first inserted). *)
Theorem c8_reassignment_in_place (is_digit : char -> bool) (decimal : char -> Z)
  (fuel : nat) (st st1 : pstate) (name asg semi : token) (v old : Value) :
  peek st = Some name -> type name = NAME ->
  dict_get (value name) (env st) = Some old ->
  peek (advance st) = Some asg -> type asg = ASSIGN ->
  parse_value is_digit decimal fuel (advance (advance st)) = Ok (v, st1) ->
  peek st1 = Some semi -> type semi = SEMICOLON ->
  exists st',
    parse_assignment is_digit decimal fuel st = Ok (tt, st') /\
    dict_get (value name) (env st') = Some v /\
    (forall y, y <> value name -> dict_get y (env st') = dict_get y (env st)) /\
    keys (env st') = keys (env st).
Proof.
  intros Hn Htn Hold Ha Hta Hv Hs Hts.
  destruct (proj1 (parse_frame is_digit decimal fuel) _ _ _ Hv) as [_ Henv].
  simpl in Henv.
  exists (set_env (advance st1) (dict_set (value name) v (env (advance st1)))).
  unfold parse_assignment.
  rewrite (consume_at NAME st name Hn Htn), (consume_at ASSIGN _ asg Ha Hta), Hv,
    (consume_at SEMICOLON st1 semi Hs Hts).
  simpl. rewrite Henv.
  split; [reflexivity|]. split; [apply dict_get_set_same|]. split.
  - intros y Hy. apply dict_get_set_other; exact Hy.
  - apply (dict_set_keys _ _ old). exact Hold.
Qed.

Definition c8_state : pstate :=
  PState [Token NAME (txt "a"); Token ASSIGN (txt ":="); Token NUMBER (txt "3");
          Token SEMICOLON (txt ";")] 0 [(txt "a", float_z 1); (txt "b", float_z 2)].

Lemma c8_witness :
  exists st', parse_assignment ascii_isdigit ascii_decimal 1 c8_state = Ok (tt, st') /\
    dict_get (txt "a") (env st') = Some (float_z 3) /\
    (forall y, y <> txt "a" -> dict_get y (env st') = dict_get y (env c8_state)) /\
    keys (env st') = keys (env c8_state).
Proof.
  apply (c8_reassignment_in_place ascii_isdigit ascii_decimal 1 c8_state
           (PState (tokens c8_state) 3 (env c8_state))
           (Token NAME (txt "a")) (Token ASSIGN (txt ":=")) (Token SEMICOLON (txt ";"))
           (float_z 3) (float_z 1)); reflexivity.
Defined.

(** ** C4, C7 and C9: the lexer *)

Local Close Scope string_scope.

(** C9: re-lexing the literals of a tokenization, joined by single spaces,
    gives back the same tokens, so in particular the same sequence of kinds.
    [is_digit] and [is_space] are Python's [\d] and [str.isspace], fixed on
    ASCII by the hypotheses. *)
Theorem c9_tokenize_idempotent (is_digit is_space : char -> bool)
  (Hd : forall c, 0 <= c < 128 -> is_digit c = (48 <=? c) && (c <=? 57))
  (Hs : forall c, 0 <= c < 128 ->
     is_space c = ((9 <=? c) && (c <=? 13)) || ((28 <=? c) && (c <=? 32)))
  (Hds : forall c, is_digit c = true -> is_space c = false)
  (s : text) (toks : list token) :
  tokenize is_digit is_space s = Ok toks ->
  exists toks', tokenize is_digit is_space (join_literals toks) = Ok toks' /\
    map type toks' = map type toks /\ toks' = toks.
Proof.
  intros H. exists toks. split; [|split; reflexivity].
  unfold tokenize. eapply tokenize_loop_join; eauto.
  eapply tokenize_loop_self_delim; eauto.
Qed.

Definition c9_source : text := txt "x := (- 5 .5E2); y := [k: -2., m: (min 1 2)];"%string.

Definition c9_tokens : list token :=
  match tokenize ascii_isdigit ascii_isspace c9_source with Ok t => t | Err _ => [] end.

Lemma c9_witness :
  exists toks', tokenize ascii_isdigit ascii_isspace (join_literals c9_tokens) = Ok toks' /\
    map type toks' = map type c9_tokens /\ toks' = c9_tokens.
Proof.
  apply (c9_tokenize_idempotent ascii_isdigit ascii_isspace) with (s := c9_source);
    [ascii_classes | ascii_classes | ascii_classes | vm_compute; reflexivity].
Defined.

(** C4: in every tokenization the literals [abs] and [min] are [FUNC]
    tokens, so no parse of a tokenization binds [abs] or [min]; [abs := 1;]
    and [min := 1;] fail with SyntaxError. *)
Theorem c4_func_literals_reserved (is_digit is_space : char -> bool) (decimal : char -> Z)
  (Hd : forall c, 0 <= c < 128 -> is_digit c = (48 <=? c) && (c <=? 57))
  (Hs : forall c, 0 <= c < 128 ->
     is_space c = ((9 <=? c) && (c <=? 13)) || ((28 <=? c) && (c <=? 32)))
  (Hds : forall c, is_digit c = true -> is_space c = false)
  (s : text) (toks : list token) :
  tokenize is_digit is_space s = Ok toks ->
  (forall t, In t toks -> value t = w_abs \/ value t = w_min -> type t = FUNC) /\
  (forall e, parse is_digit decimal toks = Ok e -> ~ In w_abs (keys e) /\ ~ In w_min (keys e)) /\
  run "abs := 1;"%string = Err SyntaxError /\ run "min := 1;"%string = Err SyntaxError.
Proof.
  intros H.
  assert (Hf : forall t, In t toks -> value t = w_abs \/ value t = w_min -> type t = FUNC)
    by (intros t Ht Hv; eapply tokenize_func_literal; eauto).
  refine (conj Hf (conj _ (conj _ _))); [|vm_compute; reflexivity | vm_compute; reflexivity].
  intros e He. unfold parse in He.
  assert (Hk : forall k, In k (keys e) -> exists t, In t toks /\ type t = NAME /\ value t = k).
  { intros k Hin.
    destruct (parse_program_keys is_digit decimal _ _ _ _ He k Hin) as [Hnil | Ht];
      [simpl in Hnil; contradiction | exact Ht]. }
  split; intros Hin; destruct (Hk _ Hin) as (t & Ht & Hty & Hv);
    [rewrite (Hf t Ht (or_introl Hv)) in Hty | rewrite (Hf t Ht (or_intror Hv)) in Hty];
    discriminate.
Qed.

Definition c4_source : text := txt "x := (abs (- 2)); y := (min x 1);"%string.

Definition c4_tokens : list token :=
  match tokenize ascii_isdigit ascii_isspace c4_source with Ok t => t | Err _ => [] end.

Lemma c4_witness :
  (forall t, In t c4_tokens -> value t = w_abs \/ value t = w_min -> type t = FUNC) /\
  (forall e, parse ascii_isdigit ascii_decimal c4_tokens = Ok e ->
     ~ In w_abs (keys e) /\ ~ In w_min (keys e)) /\
  run "abs := 1;"%string = Err SyntaxError /\ run "min := 1;"%string = Err SyntaxError.
Proof.
  apply (c4_func_literals_reserved ascii_isdigit ascii_isspace ascii_decimal) with (s := c4_source);
    [ascii_classes | ascii_classes | ascii_classes | vm_compute; reflexivity].
Defined.

(** C7 (amended): [abs] or [min] followed by a nonempty lowercase run that
    does not itself start with [abs] or [min] is lexed as a [FUNC] token for
    the prefix and one [NAME] token for the rest. *)
Theorem c7_func_prefix_split (is_digit is_space : char -> bool)
  (Hd : forall c, 0 <= c < 128 -> is_digit c = (48 <=? c) && (c <=? 57))
  (Hs : forall c, 0 <= c < 128 ->
     is_space c = ((9 <=? c) && (c <=? 13)) || ((28 <=? c) && (c <=? 32)))
  (p w : text) :
  p = w_abs \/ p = w_min -> w <> [] -> Forall (fun c => is_lower c = true) w ->
  prefix w_abs w = false -> prefix w_min w = false ->
  tokenize is_digit is_space (p ++ w) = Ok [Token FUNC p; Token NAME w].
Proof. intros. eapply tokenize_func_prefix; eauto. Qed.

Lemma c7_witness :
  tokenize ascii_isdigit ascii_isspace (w_abs ++ txt "olute"%string)
  = Ok [Token FUNC w_abs; Token NAME (txt "olute"%string)].
Proof.
  apply (c7_func_prefix_split ascii_isdigit ascii_isspace);
    [ascii_classes | ascii_classes | left; reflexivity | discriminate
    | repeat constructor | reflexivity | reflexivity].
Defined.

(** * Further properties of the code *)

(** [tokenize] either returns the token list or raises SyntaxError (on the
    first position, after whitespace, where no pattern matches); its loop
    always reaches the end of the text. *)
Theorem tokenize_error_is_syntax_error (is_digit is_space : char -> bool)
  (Hd : forall c, 0 <= c < 128 -> is_digit c = (48 <=? c) && (c <=? 57))
  (Hs : forall c, 0 <= c < 128 ->
     is_space c = ((9 <=? c) && (c <=? 13)) || ((28 <=? c) && (c <=? 32)))
  (Hds : forall c, is_digit c = true -> is_space c = false)
  (s : text) (e : error) :
  tokenize is_digit is_space s = Err e -> e = SyntaxError.
Proof.
  unfold tokenize. intros H.
  destruct (tokenize_loop_error is_digit is_space Hd Hs Hds _ _ _ H) as [-> | Hl];
    [reflexivity | lia].
Qed.

Lemma tokenize_error_witness :
  tokenize ascii_isdigit ascii_isspace (txt "a := 1 # 2;"%string) = Err SyntaxError /\
  SyntaxError = SyntaxError.
Proof.
  split; [vm_compute; reflexivity|].
  apply (tokenize_error_is_syntax_error ascii_isdigit ascii_isspace)
    with (s := txt "a := 1 # 2;"%string);
    [ascii_classes | ascii_classes | ascii_classes | vm_compute; reflexivity].
Defined.

(** The token literals, concatenated, are the input text with its
    whitespace removed, and no literal is empty: [tokenize] drops whitespace
    and nothing else. *)
Theorem tokenize_literals_cover_text (is_digit is_space : char -> bool)
  (Hd : forall c, 0 <= c < 128 -> is_digit c = (48 <=? c) && (c <=? 57))
  (Hs : forall c, 0 <= c < 128 ->
     is_space c = ((9 <=? c) && (c <=? 13)) || ((28 <=? c) && (c <=? 32)))
  (Hds : forall c, is_digit c = true -> is_space c = false)
  (s : text) (toks : list token) :
  tokenize is_digit is_space s = Ok toks ->
  concat (map value toks) = filter (fun c => negb (is_space c)) s /\
  Forall (fun t => value t <> []) toks.
Proof.
  unfold tokenize. intros H. split.
  - exact (tokenize_loop_literals is_digit is_space Hd Hs Hds _ _ _ H).
  - apply (tokenize_loop_forall is_digit is_space _ _ _ _
             (fun s' t r E => proj1 (proj2 (lex_one_split is_digit is_space Hd Hs Hds s' t r E)))
             H).
Qed.

Definition cover_source : text := txt "x := ([k: -1.5e2, m: (min 3 .5)]);
y := (- x 2);"%string.

Definition cover_tokens : list token :=
  match tokenize ascii_isdigit ascii_isspace cover_source with Ok t => t | Err _ => [] end.

Lemma tokenize_literals_witness :
  concat (map value cover_tokens) = filter (fun c => negb (ascii_isspace c)) cover_source /\
  Forall (fun t => value t <> []) cover_tokens.
Proof.
  apply (tokenize_literals_cover_text ascii_isdigit ascii_isspace) with (s := cover_source);
    [ascii_classes | ascii_classes | ascii_classes | vm_compute; reflexivity].
Defined.

(** Every [OP] token the lexer produces is [+] or [-] and every [FUNC]
    token [abs] or [min], so [eval_expr] never reaches its final
    "unknown operation" SyntaxError on an operator taken from the tokens. *)
Theorem tokenize_operators_known (is_digit is_space : char -> bool)
  (s : text) (toks : list token) :
  tokenize is_digit is_space s = Ok toks ->
  forall t, In t toks ->
  (type t = OP -> value t = op_plus \/ value t = op_minus) /\
  (type t = FUNC -> value t = w_abs \/ value t = w_min) /\
  (type t = OP \/ type t = FUNC -> forall args, eval_expr (value t) args <> Err SyntaxError).
Proof.
  unfold tokenize. intros H t Hin.
  pose proof (tokenize_loop_forall is_digit is_space _ _ _ _
                (fun s' t r E => lex_one_operator is_digit s' t r E) H) as Hall.
  destruct (proj1 (Forall_forall _ _) Hall t Hin) as [Hop Hfn].
  split; [exact Hop|]. split; [exact Hfn|].
  intros Hk args. unfold eval_expr.
  assert (Hv : value t = op_plus \/ value t = op_minus \/ value t = w_abs \/ value t = w_min)
    by (destruct Hk as [Hk|Hk]; [destruct (Hop Hk) | destruct (Hfn Hk)]; tauto).
  destruct Hv as [-> | [-> | [-> | ->]]]; cbn -[py_sum py_min py_sub py_abs].
  - intros E. apply py_sum_error in E. discriminate.
  - destruct args as [|a rest]; [discriminate|].
    destruct (py_sum rest) as [v|e] eqn:E.
    + destruct a as [[]|], v as [[]|]; simpl; discriminate.
    + intros He. injection He as ->. apply py_sum_error in E. discriminate.
  - destruct args as [|[[]|] rest]; discriminate.
  - destruct args as [|a rest]; [discriminate|].
    simpl. intros E. apply py_min_from_error in E. discriminate.
Qed.

Definition cover_minus : token := Token OP op_minus.

Lemma tokenize_operators_witness :
  In cover_minus cover_tokens /\
  ((type cover_minus = OP -> value cover_minus = op_plus \/ value cover_minus = op_minus) /\
   (type cover_minus = FUNC -> value cover_minus = w_abs \/ value cover_minus = w_min) /\
   (type cover_minus = OP \/ type cover_minus = FUNC ->
      forall args, eval_expr (value cover_minus) args <> Err SyntaxError)).
Proof.
  assert (Hin : In cover_minus cover_tokens)
    by (apply (nth_error_In _ 21); vm_compute; reflexivity).
  split; [exact Hin|].
  apply (tokenize_operators_known ascii_isdigit ascii_isspace cover_source cover_tokens);
    [vm_compute; reflexivity | exact Hin].
Defined.

(** [eval_expr] on dictionary arguments: [+] and [-] raise TypeError as soon
    as one argument is a dict, [abs] of a dict and [min] of two or more
    arguments one of which is a dict raise TypeError; the only way an
    expression yields a dict is [min] of a single dict argument. *)
Theorem eval_expr_dict_arguments :
  (forall d args, In (VDict d) args -> eval_expr op_plus args = Err TypeError) /\
  (forall d args, In (VDict d) args -> eval_expr op_minus args = Err TypeError) /\
  (forall d rest, eval_expr w_abs (VDict d :: rest) = Err TypeError) /\
  (forall d args, In (VDict d) args -> (2 <= length args)%nat ->
     eval_expr w_min args = Err TypeError) /\
  (forall op args d, eval_expr op args = Ok (VDict d) -> op = w_min /\ args = [VDict d]).
Proof.
  refine (conj _ (conj _ (conj _ (conj _ _)))).
  - intros d args Hin. exact (py_sum_dict _ _ Hin).
  - intros d [|a rest] Hin; [contradiction|]. cbn -[py_sum py_sub].
    destruct Hin as [-> | Hin].
    + destruct (py_sum rest) as [[]|e] eqn:E; try reflexivity.
      rewrite (py_sum_error _ _ E). reflexivity.
    + rewrite (py_sum_dict _ _ Hin). reflexivity.
  - reflexivity.
  - intros d [|a [|b rest]] Hin Hl; simpl in Hl; try lia.
    cbn -[py_min_from]. apply (py_min_from_dict _ _ d Hin). discriminate.
  - intros op args d. unfold eval_expr.
    destruct (text_eqb op op_plus).
    { intros H. destruct (py_sum_num _ _ H) as [q E]. discriminate. }
    destruct (text_eqb op op_minus).
    { destruct args as [|a rest]; [discriminate|].
      destruct (py_sum rest) as [v|e]; [destruct a as [[]|], v as [[]|]; discriminate | discriminate]. }
    destruct (text_eqb op w_abs).
    { destruct args as [|[[]|] rest]; discriminate. }
    destruct (text_eqb op w_min) eqn:Em; [|discriminate].
    apply text_eqb_true in Em. subst op.
    destruct args as [|[q|d0] rest]; [discriminate| |]; simpl; intros H.
    + destruct (py_min_from_num _ _ _ H) as [q' E]. discriminate.
    + destruct rest as [|x rest].
      * injection H as ->. split; reflexivity.
      * rewrite (py_min_from_dict (VDict d0) (x :: rest) d0) in H by (simpl; auto; discriminate).
        discriminate.
Qed.

(** [Parser.parse] terminates on every token list: every statement and every
    dictionary entry or argument consumes tokens, so the parse returns the
    environment or raises one of the program's exceptions, and never exhausts
    its budget of [2 n + 2] calls and [n + 1] statements for [n] tokens.  So
    does [main] without its I/O. *)
Theorem parse_terminates (is_digit : char -> bool) (decimal : char -> Z) :
  (forall toks, parse is_digit decimal toks <> Err OutOfFuel) /\
  (forall s, run s <> Err OutOfFuel).
Proof.
  assert (Hp : forall is_digit decimal toks, parse is_digit decimal toks <> Err OutOfFuel).
  { intros dg dc toks H. unfold parse in H.
    apply (parse_program_fuel dg dc) in H; unfold remaining in *; simpl in *; lia. }
  split; [apply Hp|].
  intros s. unfold run. destruct (tokenize_ascii s) as [toks|e] eqn:E; [apply Hp|].
  intros He. injection He as ->.
  apply (tokenize_error_is_syntax_error ascii_isdigit ascii_isspace) in E;
    [discriminate | ascii_classes | ascii_classes | ascii_classes].
Qed.

(** Every binding of the environment [parse] returns is named by a [NAME]
    token of the input. *)
Theorem parse_keys_are_names (is_digit : char -> bool) (decimal : char -> Z)
  (toks : list token) (e : dict Value) :
  parse is_digit decimal toks = Ok e ->
  forall k, In k (keys e) -> exists t, In t toks /\ type t = NAME /\ value t = k.
Proof.
  intros H k Hk. unfold parse in H.
  destruct (parse_program_keys is_digit decimal _ _ _ _ H k Hk) as [Hnil | Ht];
    [simpl in Hnil; contradiction | exact Ht].
Qed.

Definition keys_tokens : list token :=
  [Token NAME (txt "a"%string); Token ASSIGN (txt ":="%string); Token NUMBER (txt "1"%string);
   Token SEMICOLON (txt ";"%string)].

Lemma parse_keys_witness :
  exists t, In t keys_tokens /\ type t = NAME /\ value t = txt "a"%string.
Proof.
  apply (parse_keys_are_names ascii_isdigit ascii_decimal keys_tokens
           [(txt "a"%string, float_z 1)]);
    [vm_compute; reflexivity | left; reflexivity].
Defined.

(** A [-] directly followed by a digit is always read as the sign of a
    NUMBER literal, never as an [OP] token: the NUMBER group comes first in
    TOKEN_REGEX and its [-?] takes the sign.  So [(-5 3)] lexes as [(], [-5],
    [3], [)], and only a [-] followed by a space or a non-digit is the
    subtraction operator. *)
Theorem minus_digit_is_number (is_digit : char -> bool) (d : char) (r : text) :
  is_digit d = true ->
  exists lit r',
    lex_one is_digit (c_minus :: d :: r) = Some (Token NUMBER (c_minus :: d :: lit), r').
Proof.
  intros Hd. unfold lex_one, patterns. cbn [first_match].
  unfold match_number, opt_minus. rewrite Z.eqb_refl.
  unfold mantissa. cbn [span]. rewrite Hd.
  destruct (span is_digit r) as [a b].
  assert (Hm : exists m s2, (match b with
      | c :: u =>
          if c =? c_dot then let '(d2, v) := span is_digit u in Some ((d :: a) ++ c :: d2, v)
          else Some (d :: a, b)
      | [] => Some (d :: a, b)
      end) = Some (d :: m, s2)).
  { destruct b as [|c u]; [eauto|].
    destruct (c =? c_dot); [destruct (span is_digit u) as [d2 v]|]; cbn [app]; eauto. }
  destruct Hm as (m & s2 & ->).
  destruct (exponent is_digit s2) as [e s3].
  exists (m ++ e), s3. reflexivity.
Qed.

Lemma minus_digit_witness :
  exists lit r', lex_one ascii_isdigit (c_minus :: 53 :: txt " 3)"%string) =
    Some (Token NUMBER (c_minus :: 53 :: lit), r').
Proof. apply minus_digit_is_number. reflexivity. Defined.

(** * Composition of statements *)

Section Compose.

Variable is_digit : char -> bool.
Variable decimal : char -> Z.

(** ** Fuel: more budget never changes an answer that was reached *)

Ltac mono_step :=
  cbn beta iota zeta;
  match goal with
  | |- Err OutOfFuel <> Err OutOfFuel -> _ => intros Hne; exfalso; apply Hne; reflexivity
  | |- _ <> _ -> ?x = ?x => intros _; reflexivity
  | IH : forall st r, ?F ?f0 st = r -> r <> Err OutOfFuel -> ?F ?f1 st = r
    |- context [?F ?f0 ?s] =>
      let E := fresh "E" in
      destruct (F f0 s) as [[? ?]|[]] eqn:E;
      try (rewrite (IH s _ E) by discriminate)
  | IH : forall a st r, ?F ?f0 a st = r -> r <> Err OutOfFuel -> ?F ?f1 a st = r
    |- context [?F ?f0 ?a ?s] =>
      let E := fresh "E" in
      destruct (F f0 a s) as [[? ?]|[]] eqn:E;
      try (rewrite (IH a s _ E) by discriminate)
  | |- context [match ?m with _ => _ end] => destruct m
  end.

Lemma parse_mono (f0 : nat) : forall f1, (f0 <= f1)%nat ->
  (forall st r, parse_value is_digit decimal f0 st = r -> r <> Err OutOfFuel ->
     parse_value is_digit decimal f1 st = r) /\
  (forall st r, parse_dict is_digit decimal f0 st = r -> r <> Err OutOfFuel ->
     parse_dict is_digit decimal f1 st = r) /\
  (forall d st r, parse_dict_loop is_digit decimal f0 d st = r -> r <> Err OutOfFuel ->
     parse_dict_loop is_digit decimal f1 d st = r) /\
  (forall st r, parse_expr is_digit decimal f0 st = r -> r <> Err OutOfFuel ->
     parse_expr is_digit decimal f1 st = r) /\
  (forall a st r, parse_args_loop is_digit decimal f0 a st = r -> r <> Err OutOfFuel ->
     parse_args_loop is_digit decimal f1 a st = r).
Proof.
  induction f0 as [|f0 IH]; intros f1 Hle.
  { refine (conj _ (conj _ (conj _ (conj _ _)))); intros; subst; simpl in *; congruence. }
  destruct f1 as [|f1]; [lia|].
  destruct (IH f1 ltac:(lia)) as (IHv & IHd & IHdl & IHe & IHa). clear IH.
  refine (conj _ (conj _ (conj _ (conj _ _)))); intros; subst.
  - rewrite !parse_value_S in *. revert H0. repeat mono_step.
  - rewrite !parse_dict_S in *. revert H0. repeat mono_step.
  - rewrite !parse_dict_loop_S in *. revert H0. repeat mono_step.
  - rewrite !parse_expr_S in *. revert H0. repeat mono_step.
  - rewrite !parse_args_loop_S in *. revert H0. repeat mono_step.
Qed.


Lemma parse_assignment_mono f0 f1 st r : (f0 <= f1)%nat ->
  parse_assignment is_digit decimal f0 st = r -> r <> Err OutOfFuel ->
  parse_assignment is_digit decimal f1 st = r.
Proof.
  intros Hle. destruct (parse_mono f0 f1 Hle) as (IHv & _). intros; subst. revert H0.
  unfold parse_assignment. repeat mono_step.
Qed.

Lemma parse_program_mono vf0 vf1 f0 f1 st r : (vf0 <= vf1)%nat -> (f0 <= f1)%nat ->
  parse_program is_digit decimal vf0 f0 st = r -> r <> Err OutOfFuel ->
  parse_program is_digit decimal vf1 f1 st = r.
Proof.
  intros Hv. revert f1 st. induction f0 as [|f0 IH]; intros f1 st Hf H Hne; subst;
    [simpl in Hne; congruence|].
  destruct f1 as [|f1]; [lia|]. simpl in *.
  destruct (peek st); [|reflexivity].
  destruct (parse_assignment is_digit decimal vf0 st) as [[u st']|e] eqn:E.
  - rewrite (parse_assignment_mono vf0 vf1 st _ Hv E) by discriminate.
    apply IH; [lia | reflexivity | exact Hne].
  - rewrite (parse_assignment_mono vf0 vf1 st _ Hv E) by congruence. reflexivity.
Qed.

(** ** Parsing reads only the tokens from the current position on *)

Definition rmap {A} (g : pstate -> pstate) (r : result (A * pstate)) : result (A * pstate) :=
  match r with Ok (a, s) => Ok (a, g s) | Err e => Err e end.

(** The same state behind a prefix [t1] of extra tokens. *)
Definition shift (t1 : list token) (st : pstate) : pstate :=
  PState (t1 ++ tokens st) (pos st + length t1) (env st).

Lemma nth_error_shift (t1 l : list token) (p : nat) :
  nth_error (t1 ++ l) (p + length t1) = nth_error l p.
Proof. rewrite nth_error_app2 by lia. f_equal. lia. Qed.

Lemma peek_shift t1 st : peek (shift t1 st) = peek st.
Proof. apply nth_error_shift. Qed.

Lemma next_shift t1 st :
  nth_error (tokens (shift t1 st)) (S (pos (shift t1 st))) = nth_error (tokens st) (S (pos st)).
Proof. apply (nth_error_shift t1 (tokens st) (S (pos st))). Qed.

Lemma env_shift t1 st : env (shift t1 st) = env st.
Proof. reflexivity. Qed.

Lemma consume_shift t1 k st : consume k (shift t1 st) = rmap (shift t1) (consume k st).
Proof.
  unfold consume. rewrite peek_shift. destruct (peek st); [|reflexivity].
  destruct (kind_eqb _ _); reflexivity.
Qed.

Ltac shift_step :=
  cbn [rmap]; cbv zeta;
  match goal with
  | |- ?x = ?x => reflexivity
  | |- Ok _ = _ => reflexivity
  | |- Err _ = _ => reflexivity
  | |- context [peek (shift ?t ?s)] => rewrite (peek_shift t s)
  | |- context [nth_error (tokens (shift ?t ?s)) (S (pos (shift ?t ?s)))] => rewrite (next_shift t s)
  | |- context [env (shift ?t ?s)] => rewrite (env_shift t s)
  | |- context [consume ?k (shift ?t ?s)] => rewrite (consume_shift t k s)
  | IH : forall st, ?F (shift ?t st) = rmap (shift ?t) (?F st) |- context [?F (shift ?t ?s)] =>
      rewrite (IH s)
  | IH : forall a st, ?F a (shift ?t st) = rmap (shift ?t) (?F a st) |- context [?F ?a (shift ?t ?s)] =>
      rewrite (IH a s)
  | |- context [match ?m with _ => _ end] =>
      lazymatch m with context [shift] => fail | _ => destruct m end
  end.

Lemma parse_shift (t1 : list token) (fuel : nat) :
  (forall st, parse_value is_digit decimal fuel (shift t1 st) =
     rmap (shift t1) (parse_value is_digit decimal fuel st)) /\
  (forall st, parse_dict is_digit decimal fuel (shift t1 st) =
     rmap (shift t1) (parse_dict is_digit decimal fuel st)) /\
  (forall d st, parse_dict_loop is_digit decimal fuel d (shift t1 st) =
     rmap (shift t1) (parse_dict_loop is_digit decimal fuel d st)) /\
  (forall st, parse_expr is_digit decimal fuel (shift t1 st) =
     rmap (shift t1) (parse_expr is_digit decimal fuel st)) /\
  (forall a st, parse_args_loop is_digit decimal fuel a (shift t1 st) =
     rmap (shift t1) (parse_args_loop is_digit decimal fuel a st)).
Proof.
  induction fuel as [|f IH];
    [refine (conj _ (conj _ (conj _ (conj _ _)))); intros; reflexivity|].
  destruct IH as (IHv & IHd & IHdl & IHe & IHa).
  refine (conj _ (conj _ (conj _ (conj _ _)))); intros.
  - rewrite !parse_value_S. repeat shift_step.
  - rewrite !parse_dict_S. repeat shift_step.
  - rewrite !parse_dict_loop_S. repeat shift_step.
  - rewrite !parse_expr_S. repeat shift_step.
  - rewrite !parse_args_loop_S. repeat shift_step.
Qed.


Lemma parse_assignment_shift t1 fuel st :
  parse_assignment is_digit decimal fuel (shift t1 st) =
  rmap (shift t1) (parse_assignment is_digit decimal fuel st).
Proof.
  pose proof (proj1 (parse_shift t1 fuel)) as IHv.
  unfold parse_assignment. repeat shift_step.
Qed.

Lemma parse_program_shift t1 vfuel fuel st :
  parse_program is_digit decimal vfuel fuel (shift t1 st) =
  parse_program is_digit decimal vfuel fuel st.
Proof.
  revert st. induction fuel as [|f IH]; intros st; [reflexivity|]. simpl.
  rewrite peek_shift. destruct (peek st); [|reflexivity].
  rewrite parse_assignment_shift.
  destruct (parse_assignment is_digit decimal vfuel st) as [[u st']|e]; simpl; [apply IH | reflexivity].
Qed.

(** ** A successful parse is kept when tokens are appended *)

(** The same state with extra tokens [t2] after the end. *)
Definition ext (t2 : list token) (st : pstate) : pstate :=
  PState (tokens st ++ t2) (pos st) (env st).

Lemma nth_error_app_some (l l' : list token) (i : nat) (t : token) :
  nth_error l i = Some t -> nth_error (l ++ l') i = Some t.
Proof.
  intros H. rewrite nth_error_app1; [exact H|]. apply nth_error_Some. congruence.
Qed.

Lemma peek_ext t2 st t : peek st = Some t -> peek (ext t2 st) = Some t.
Proof. apply nth_error_app_some. Qed.

Lemma next_ext t2 st t :
  nth_error (tokens st) (S (pos st)) = Some t ->
  nth_error (tokens (ext t2 st)) (S (pos (ext t2 st))) = Some t.
Proof. apply nth_error_app_some. Qed.

Lemma env_ext t2 st : env (ext t2 st) = env st.
Proof. reflexivity. Qed.

Lemma consume_ext t2 k st t st' :
  consume k st = Ok (t, st') -> consume k (ext t2 st) = Ok (t, ext t2 st').
Proof.
  intros H. destruct (consume_ok _ _ _ _ H) as (-> & Hp & Ht).
  apply consume_at; [apply peek_ext; exact Hp | exact Ht].
Qed.

Ltac ext_step :=
  cbv zeta; cbn beta iota;
  match goal with
  | |- ?x = ?x => reflexivity
  | |- Ok _ = Ok _ => reflexivity
  | E : peek ?s = Some _ |- context [peek (ext ?t ?s)] => rewrite (peek_ext t s _ E)
  | E : nth_error (tokens ?s) (S (pos ?s)) = Some _
    |- context [nth_error (tokens (ext ?t ?s)) (S (pos (ext ?t ?s)))] => rewrite (next_ext t s _ E)
  | |- context [env (ext ?t ?s)] => rewrite (env_ext t s)
  | E : consume ?k ?s = Ok _ |- context [consume ?k (ext ?t ?s)] => rewrite (consume_ext t k s _ _ E)
  | IH : forall st v st', ?F st = Ok (v, st') -> ?F (ext ?t st) = Ok (v, ext ?t st'),
    E : ?F ?s = Ok _ |- context [?F (ext ?t ?s)] => rewrite (IH _ _ _ E)
  | IH : forall a st v st', ?F a st = Ok (v, st') -> ?F a (ext ?t st) = Ok (v, ext ?t st'),
    E : ?F ?a ?s = Ok _ |- context [?F ?a (ext ?t ?s)] => rewrite (IH _ _ _ _ E)
  | E : ?m = _ |- context [?m] => rewrite E
  | E : (if ?b then _ else _) = Ok _ |- _ =>
      let Eb := fresh "Eb" in revert E; destruct b eqn:Eb; intros E; try discriminate E
  end.

Lemma parse_ext (t2 : list token) (fuel : nat) :
  (forall st v st', parse_value is_digit decimal fuel st = Ok (v, st') ->
     parse_value is_digit decimal fuel (ext t2 st) = Ok (v, ext t2 st')) /\
  (forall st v st', parse_dict is_digit decimal fuel st = Ok (v, st') ->
     parse_dict is_digit decimal fuel (ext t2 st) = Ok (v, ext t2 st')) /\
  (forall d st v st', parse_dict_loop is_digit decimal fuel d st = Ok (v, st') ->
     parse_dict_loop is_digit decimal fuel d (ext t2 st) = Ok (v, ext t2 st')) /\
  (forall st v st', parse_expr is_digit decimal fuel st = Ok (v, st') ->
     parse_expr is_digit decimal fuel (ext t2 st) = Ok (v, ext t2 st')) /\
  (forall a st v st', parse_args_loop is_digit decimal fuel a st = Ok (v, st') ->
     parse_args_loop is_digit decimal fuel a (ext t2 st) = Ok (v, ext t2 st')).
Proof.
  induction fuel as [|f IH];
    [refine (conj _ (conj _ (conj _ (conj _ _)))); intros; discriminate|].
  destruct IH as (IHv & IHd & IHdl & IHe & IHa).
  refine (conj _ (conj _ (conj _ (conj _ _)))); intros.
  - rewrite parse_value_S in *. split_matches H. all: repeat ext_step.
  - rewrite parse_dict_S in *. split_matches H. all: repeat ext_step.
  - rewrite parse_dict_loop_S in *. split_matches H. all: repeat ext_step.
  - rewrite parse_expr_S in *. split_matches H. all: repeat ext_step.
  - rewrite parse_args_loop_S in *. split_matches H. all: repeat ext_step.
Qed.


Lemma parse_assignment_ext t2 fuel st u st' :
  parse_assignment is_digit decimal fuel st = Ok (u, st') ->
  parse_assignment is_digit decimal fuel (ext t2 st) = Ok (u, ext t2 st').
Proof.
  pose proof (proj1 (parse_ext t2 fuel)) as IHv.
  unfold parse_assignment. intros H. split_matches H. all: repeat ext_step.
Qed.

Lemma parse_assignment_pos fuel st u st' :
  parse_assignment is_digit decimal fuel st = Ok (u, st') ->
  (pos st' <= length (tokens st'))%nat.
Proof.
  unfold parse_assignment. intros H. split_matches H.
  apply consume_ok in E5. destruct E5 as (-> & Hp & _).
  apply peek_lt in Hp. simpl. lia.
Qed.

Lemma parse_program_ext t2 vf vf' f st e : (vf <= vf')%nat ->
  (pos st <= length (tokens st))%nat ->
  parse_program is_digit decimal vf f st = Ok e -> forall g, exists g', (S g <= g')%nat /\
  parse_program is_digit decimal vf' (f + g) (ext t2 st) =
  parse_program is_digit decimal vf' g' (PState (tokens st ++ t2) (length (tokens st)) e).
Proof.
  intros Hv. revert st. induction f as [|f IH]; intros st Hpos H g; [discriminate|].
  simpl in H. destruct (peek st) as [t|] eqn:Hp.
  - destruct (parse_assignment is_digit decimal vf st) as [[u st']|err] eqn:Ea; [|discriminate].
    pose proof (parse_assignment_tokens _ _ _ _ _ _ Ea) as Htok.
    destruct (IH st' (parse_assignment_pos _ _ _ _ Ea) H g) as (g' & Hg & E).
    exists g'. split; [exact Hg|]. rewrite Htok in E. rewrite <- E.
    simpl. rewrite (peek_ext t2 st t Hp).
    rewrite (parse_assignment_ext t2 vf' st u st');
      [reflexivity | apply (parse_assignment_mono vf vf' st _ Hv Ea); discriminate].
  - injection H as <-. apply nth_error_None in Hp.
    exists (S f + g)%nat. split; [lia|].
    unfold ext. replace (pos st) with (length (tokens st)) by lia. reflexivity.
Qed.


(** [Parser(tokens)] whose [env] already holds [e] when [parse] starts. *)
Definition parse_from (e : dict Value) (toks : list token) : result (dict Value) :=
  parse_program is_digit decimal (2 * length toks + 2) (S (length toks)) (PState toks 0 e).

End Compose.

(** A program is read statement by statement: when [toks1] parses to the
    environment [e1], the program [toks1 ++ toks2] gives exactly what [toks2]
    gives from the environment [e1] (the same bindings, or the same
    exception). *)
Theorem parse_app (is_digit : char -> bool) (decimal : char -> Z)
  (toks1 toks2 : list token) (e1 : dict Value) :
  parse is_digit decimal toks1 = Ok e1 ->
  parse is_digit decimal (toks1 ++ toks2) = parse_from is_digit decimal e1 toks2.
Proof.
  unfold parse, parse_from. intros H. rewrite length_app.
  destruct (parse_program_ext is_digit decimal toks2 (2 * length toks1 + 2)
              (2 * (length toks1 + length toks2) + 2) (S (length toks1))
              (PState toks1 0 []) e1 ltac:(lia) ltac:(simpl; lia) H (length toks2))
    as (g' & Hg & E).
  replace (S (length toks1 + length toks2)) with (S (length toks1) + length toks2)%nat by lia.
  change (ext toks2 (PState toks1 0 [])) with (PState (toks1 ++ toks2) 0 []) in E.
  rewrite E. cbn [tokens].
  change (PState (toks1 ++ toks2) (length toks1) e1) with (shift toks1 (PState toks2 0 e1)).
  rewrite parse_program_shift.
  apply (parse_program_mono is_digit decimal (2 * length toks2 + 2) _ (S (length toks2)));
    [lia | lia | reflexivity |].
  intros Hoof. apply (parse_program_fuel is_digit decimal) in Hoof;
    unfold remaining in *; simpl in *; lia.
Qed.

Definition app_tokens1 : list token :=
  match tokenize ascii_isdigit ascii_isspace (txt "a := 1;"%string) with Ok t => t | Err _ => [] end.
Definition app_tokens2 : list token :=
  match tokenize ascii_isdigit ascii_isspace (txt "b := (+ a 2); a := (- b);"%string) with
  | Ok t => t | Err _ => [] end.
Definition app_env1 : dict Value :=
  match parse ascii_isdigit ascii_decimal app_tokens1 with Ok e => e | Err _ => [] end.

Lemma parse_app_witness :
  parse ascii_isdigit ascii_decimal (app_tokens1 ++ app_tokens2) =
  parse_from ascii_isdigit ascii_decimal app_env1 app_tokens2.
Proof. apply parse_app. vm_compute. reflexivity. Defined.

Lemma eval_expr_dict_witness :
  eval_expr op_plus [float_z 1; VDict []] = Err TypeError /\
  eval_expr w_min [VDict [(txt "x"%string, float_z 1)]] = Ok (VDict [(txt "x"%string, float_z 1)]).
Proof.
  split; [|reflexivity].
  apply (proj1 eval_expr_dict_arguments []). simpl. right; left; reflexivity.
Defined.

Lemma parse_terminates_witness : run "a := (+ 1"%string <> Err OutOfFuel.
Proof. apply (proj2 (parse_terminates ascii_isdigit ascii_decimal)). Defined.
